(** * Staking payouts of an account: a model of AccountsStakingPayoutsService

    The development embeds [src/services/accounts/AccountsStakingPayoutsService.ts]
    and states, over that embedding, the properties of the era-by-era payout
    reconciliation.

    Conventions of the embedding.
    - JS [number]s that the service computes with ([depth], [era],
      [currentEra], [startEra], array indices) are integers of [Z].
    - SCALE values decoded by the chain client ([u32], [EraIndex], [Perbill],
      [Balance], reward points) are naturals of [N]; the service never does
      arithmetic on them, it only compares and forwards them.
    - Plain JS objects used as dictionaries are [gmap string _]; account
      identities are their SS58 text, as in the source where every key goes
      through [toString()].
    - [async] functions run in the monad [M]: an exception or a value,
      together with the request state (the ledger cache, the list of chain
      queries sent so far, and the orders in which the promises of the
      [Promise.all] calls to come will settle).
    - A call of an [async] function that is not awaited at once is a
      computation of a promise, [M (M A)]: the call runs up to its first
      [await], where its requests are sent, and the promise is what is left
      to run.  A promise is run once.  [Promise.all] over an array is
      [Promise_all]: it runs what is left of its promises in the order that
      the request state prescribes, which the program does not choose, and
      resolves to their values by position; the first failure met is the
      failure of the whole.
    - Requests to the node are total functions of the chain state at the
      queried block; a failing node is outside the model. *)

From Stdlib Require Import ZArith NArith Lia.
From stdpp Require Import base option list strings gmap pretty.

Local Open Scope Z_scope.

(** ** JavaScript and codec primitives used by the service *)

Module JS.

(** [Math.max(a, b)] on integers. *)
Definition Math_max (a b : Z) : Z := Z.max a b.

(** [Number.isInteger(n)]: every number the service passes is an integer. *)
Definition Number_isInteger (n : Z) : bool := true.

(** [Vec<EraIndex>.indexOf(x)]: position of the first element equal to [x]
    (codec equality), [-1] when there is none. *)
Fixpoint indexOf_from (i : Z) (l : list N) (x : N) : Z :=
  match l with
  | [] => -1
  | y :: l' => if (y =? x)%N then i else indexOf_from (i + 1) l' x
  end.

Definition indexOf (l : list N) (x : N) : Z := indexOf_from 0 l x.

(** The [EraIndex] that a storage query encodes the number [era] to when it
    is given as an argument.  [fetchCommissionAndLedger], which does so, is
    private, and the service calls it with numbers that
    [registry.createType('EraIndex', _)] has accepted before. *)
Definition eraArgument (era : Z) : N := Z.to_N era.

End JS.

(** ** Data model *)

Definition AccountId := string.
Definition BlockHash := string.
Definition EraIndex := N.
Definition Balance := N.
Definition Perbill := N.
Definition RewardPoint := N.

(** One nominator behind a validator: [{ who, value }]. *)
Module IndividualExposure.
Record t := mk { who : AccountId; value : Balance }.
End IndividualExposure.

(** [PalletStakingExposure]: [{ total, own, others }]. *)
Module PalletStakingExposure.
Record t := mk {
  total : Balance;
  own : Balance;
  others : list IndividualExposure.t
}.
End PalletStakingExposure.

(** [StorageKey<[EraIndex, AccountId]>]; the service reads [key.args[1]]. *)
Module StorageKey.
Record t := mk { args : EraIndex * AccountId }.
End StorageKey.

(** [KeysAndExposures]: the entries of [erasStakersClipped] for one era. *)
Definition KeysAndExposures := list (StorageKey.t * PalletStakingExposure.t).

(** [DeriveEraExposureNominating]: [{ validatorId, validatorIndex }]. *)
Module DeriveEraExposureNominating.
Record t := mk { validatorId : AccountId; validatorIndex : Z }.
End DeriveEraExposureNominating.

(** [DeriveEraExposure]: [{ era, nominators, validators }]. *)
Module DeriveEraExposure.
Record t := mk {
  era : EraIndex;
  nominators : gmap string (list DeriveEraExposureNominating.t);
  validators : gmap string PalletStakingExposure.t
}.
End DeriveEraExposure.

(** [PalletStakingEraRewardPoints]: [{ total, individual }]; [individual] is
    iterated through [entries()], so it is kept as the list of its entries. *)
Module PalletStakingEraRewardPoints.
Record t := mk {
  total : RewardPoint;
  individual : list (AccountId * RewardPoint)
}.
End PalletStakingEraRewardPoints.

(** The ledger record as the service probes it.  The three fields are the
    three historical layouts; a field that the decoded record does not have is
    [None] ([undefined] in JS).  [lastReward] is an [Option<EraIndex>] codec
    when the field exists, hence the nested option. *)
Module StakingLedger.
Record t := mk {
  legacyClaimedRewards : option (list EraIndex);
  claimedRewards : option (list EraIndex);
  lastReward : option (option EraIndex)
}.
End StakingLedger.

(** [ICommissionAndLedger]: [{ commission, validatorLedger? }]. *)
Module ICommissionAndLedger.
Record t := mk {
  commission : Perbill;
  validatorLedger : option StakingLedger.t
}.
End ICommissionAndLedger.

(** An element of [exposuresWithCommission]:
    [{ validatorId, ...eraCommissions[idx] }].  Spreading [undefined] adds no
    field, so [commission] and [validatorLedger] are present together
    ([spread = Some _]) or absent together ([spread = None]). *)
Module ExposureWithCommission.
Record t := mk {
  validatorId : AccountId;
  spread : option ICommissionAndLedger.t
}.

(** The [validatorLedger] field of the element, [undefined] as [None]. *)
Definition validatorLedger (x : t) : option StakingLedger.t :=
  c ← spread x; ICommissionAndLedger.validatorLedger c.

(** The [commission] field of the element, [undefined] as [None]. *)
Definition commission (x : t) : option Perbill :=
  ICommissionAndLedger.commission <$> spread x.
End ExposureWithCommission.

(** [IEraData]. *)
Module IEraData.
Record t := mk {
  deriveEraExposure : DeriveEraExposure.t;
  eraRewardPoints : PalletStakingEraRewardPoints.t;
  erasValidatorRewardOption : option Balance;
  exposuresWithCommission : option (list ExposureWithCommission.t);
  eraIndex : EraIndex
}.
End IEraData.

(** [IPayout]. *)
Module IPayout.
Record t := mk {
  validatorId : AccountId;
  nominatorStakingPayout : string;
  claimed : bool;
  totalValidatorRewardPoints : RewardPoint;
  validatorCommission : Perbill;
  totalValidatorExposure : Balance;
  nominatorExposure : Balance
}.
End IPayout.

(** What [deriveEraPayouts] returns: [IEraPayouts | { message: string }]. *)
Inductive EraPayoutsOrMessage :=
| Message (message : string)
| EraPayouts (era : EraIndex) (totalEraRewardPoints : RewardPoint)
    (totalEraPayout : Balance) (payouts : list IPayout.t).

(** Exceptions.  [BadRequest] is the [http-errors] class the service throws
    for a range it refuses; [TypeError] is what the JS runtime throws when a
    property of [undefined] is read; [PlainError] is an [Error] of no other
    class, which is what the codec throws for a number it cannot hold. *)
Inductive Error :=
| BadRequest (msg : string)
| TypeError (msg : string)
| PlainError (msg : string).

Inductive Outcome (A : Type) :=
| Ok (a : A)
| Throw (e : Error).
Arguments Ok {A} a.
Arguments Throw {A} e.

Global Instance Outcome_ret : MRet Outcome := λ A a, Ok a.
Global Instance Outcome_bind : MBind Outcome := λ A B f m,
  match m with
  | Ok a => f a
  | Throw e => Throw e
  end.

Global Instance Outcome_fmap : FMap Outcome := λ A B f m,
  match m with
  | Ok a => Ok (f a)
  | Throw e => Throw e
  end.

(** The [TypeError] of reading [property] of [undefined]. *)
Definition readOfUndefined (property : string) : Error :=
  TypeError ("Cannot read properties of undefined (reading '" +:+ property +:+ "')").

(** [registry.createType('EraIndex', n)]: an [EraIndex] is a [u32], and the
    codec throws for a negative number and for a number of more than 32
    bits.  Only the class of the error matters below, not its text. *)
Definition createType_EraIndex (n : Z) : Outcome EraIndex :=
  if n <? 0 then Throw (PlainError "u32: Negative number passed to unsigned type")
  else if 2 ^ 32 <=? n then Throw (PlainError "u32: Input too large")
  else Ok (Z.to_N n).

(** ** Exposure derivation *)

(** The inner [exposure.others.forEach(({ who }, validatorIndex) => ...)] of
    [mapStakers]: each nominator gets [{ validatorId, validatorIndex }]
    pushed on its own list, created empty on first use. *)
Fixpoint forEachOther (validatorId : AccountId)
    (others : list IndividualExposure.t) (validatorIndex : Z)
    (nominators : gmap string (list DeriveEraExposureNominating.t))
  : gmap string (list DeriveEraExposureNominating.t) :=
  match others with
  | [] => nominators
  | o :: rest =>
      let nominatorId := IndividualExposure.who o in
      let existing := default [] (nominators !! nominatorId) in
      forEachOther validatorId rest (validatorIndex + 1)
        (<[nominatorId :=
             existing ++ [DeriveEraExposureNominating.mk validatorId validatorIndex]]>
           nominators)
  end.

(** The outer [stakers.forEach(([key, exposure]) => ...)] of [mapStakers]. *)
Fixpoint forEachStaker (stakers : KeysAndExposures)
    (nominators : gmap string (list DeriveEraExposureNominating.t))
    (validators : gmap string PalletStakingExposure.t)
  : gmap string (list DeriveEraExposureNominating.t) *
    gmap string PalletStakingExposure.t :=
  match stakers with
  | [] => (nominators, validators)
  | (key, exposure) :: rest =>
      let validatorId := snd (StorageKey.args key) in
      let validators := <[validatorId := exposure]> validators in
      let nominators :=
        forEachOther validatorId (PalletStakingExposure.others exposure) 0 nominators in
      forEachStaker rest nominators validators
  end.

(** [mapStakers(era, stakers)], the local function of [deriveEraExposure]. *)
Definition mapStakers (era : EraIndex) (stakers : KeysAndExposures)
  : DeriveEraExposure.t :=
  let '(nominators, validators) := forEachStaker stakers ∅ ∅ in
  DeriveEraExposure.mk era nominators validators.

(** [deriveNominatedExposures(address, deriveEraExposure)].  The declared
    return type is [DeriveEraExposureNominating[] | undefined]; [None] stands
    for [undefined]. *)
Definition deriveNominatedExposures (address : string)
    (deriveEraExposure : DeriveEraExposure.t)
  : option (list DeriveEraExposureNominating.t) :=
  let nominatedExposures :=
    default [] (DeriveEraExposure.nominators deriveEraExposure !! address) in
  let nominatedExposures :=
    match DeriveEraExposure.validators deriveEraExposure !! address with
    | Some _ =>
        nominatedExposures ++ [DeriveEraExposureNominating.mk address 9999]
    | None => nominatedExposures
    end in
  Some nominatedExposures.

(** ** Reward points and exposure of one validator *)

(** [extractTotalValidatorRewardPoints]: the first entry of [individual]
    whose key prints as [validatorId]; [None] for the bare [return]. *)
Fixpoint entriesFind (entries : list (AccountId * RewardPoint))
    (validatorId : string) : option RewardPoint :=
  match entries with
  | [] => None
  | (id, points) :: rest =>
      if decide (id = validatorId) then Some points
      else entriesFind rest validatorId
  end.

Definition extractTotalValidatorRewardPoints
    (eraRewardPoints : PalletStakingEraRewardPoints.t) (validatorId : string)
  : option RewardPoint :=
  entriesFind (PalletStakingEraRewardPoints.individual eraRewardPoints) validatorId.

(** [Array.prototype.find]. *)
Fixpoint Array_find {A} (p : A → bool) (l : list A) : option A :=
  match l with
  | [] => None
  | x :: rest => if p x then Some x else Array_find p rest
  end.

(** [extractExposure]: [{ totalExposure, nominatorExposure }].  Reading
    [.total] of a validator missing from [validators] is a [TypeError]. *)
Definition extractExposure (address validatorId : string)
    (deriveEraExposure : DeriveEraExposure.t)
  : Outcome (Balance * option Balance) :=
  let validators := DeriveEraExposure.validators deriveEraExposure in
  match validators !! validatorId with
  | None => Throw (readOfUndefined "total")
  | Some exposure =>
      let totalExposure := PalletStakingExposure.total exposure in
      let exposureAllNominators := PalletStakingExposure.others exposure in
      if decide (address = validatorId) then
        match validators !! address with
        | None => Throw (readOfUndefined "own")
        | Some self => Ok (totalExposure, Some (PalletStakingExposure.own self))
        end
      else
        Ok (totalExposure,
            IndividualExposure.value <$>
              Array_find
                (λ exposure, bool_decide (IndividualExposure.who exposure = address))
                exposureAllNominators)
  end.

(** ** Claim resolution *)

(** Lines 349-363 of the source: the value given to [indexOfEra], or [None]
    where the loop body runs [continue]. *)
Definition resolveIndexOfEra (validatorLedger : StakingLedger.t)
    (eraIndex : EraIndex) : option Z :=
  match StakingLedger.legacyClaimedRewards validatorLedger with
  | Some legacyClaimedRewards => Some (JS.indexOf legacyClaimedRewards eraIndex)
  | None =>
      match StakingLedger.claimedRewards validatorLedger with
      | Some claimedRewards => Some (JS.indexOf claimedRewards eraIndex)
      | None =>
          match StakingLedger.lastReward validatorLedger with
          | Some lastReward =>
              match lastReward with
              | Some e => Some (Z.of_N e)
              | None => None
              end
          | None => None
          end
      end
  end.

(** [Number.isInteger(indexOfEra) && indexOfEra !== -1]. *)
Definition claimedOf (indexOfEra : Z) : bool :=
  JS.Number_isInteger indexOfEra && negb (indexOfEra =? -1).

(** ** Payouts of one era *)

Section Payouts.

(** The payout primitive of [@substrate/calc]:
    [CalcPayout.from_params(totalRewardPoints, eraPayout)
       .calc_payout(validatorPoints, commission, nominatorExposure,
                    totalExposure, isValidator)].
    It is an external collaborator; the service forwards its arguments and
    stores the amount it returns. *)
Variable calc_payout :
  RewardPoint → Balance → RewardPoint → Perbill → Balance → Balance → bool → string.

(** One iteration of the [for ... of exposuresWithCommission] loop:
    [Ok None] is [continue], [Ok (Some p)] is [payouts.push(p)]. *)
Definition payoutOf (address : string) (unclaimedOnly : bool)
    (eraData : IEraData.t) (totalEraRewardPoints : RewardPoint)
    (totalEraPayout : Balance) (x : ExposureWithCommission.t)
  : Outcome (option IPayout.t) :=
  let validatorId := ExposureWithCommission.validatorId x in
  match extractTotalValidatorRewardPoints (IEraData.eraRewardPoints eraData) validatorId with
  | None => Ok None
  | Some totalValidatorRewardPoints =>
    if (totalValidatorRewardPoints =? 0)%N then Ok None else
    '(totalExposure, nominatorExposure) ←
      extractExposure address validatorId (IEraData.deriveEraExposure eraData);
    match nominatorExposure with
    | None => Ok None
    | Some nominatorExposure =>
      match ExposureWithCommission.spread x with
      | None => Ok None
      | Some c =>
        match ICommissionAndLedger.validatorLedger c with
        | None => Ok None
        | Some validatorLedger =>
          match resolveIndexOfEra validatorLedger (IEraData.eraIndex eraData) with
          | None => Ok None
          | Some indexOfEra =>
            let claimed := claimedOf indexOfEra in
            if unclaimedOnly && claimed then Ok None else
            let validatorCommission := ICommissionAndLedger.commission c in
            let nominatorStakingPayout :=
              calc_payout totalEraRewardPoints totalEraPayout
                totalValidatorRewardPoints validatorCommission
                nominatorExposure totalExposure
                (bool_decide (address = validatorId)) in
            Ok (Some (IPayout.mk validatorId nominatorStakingPayout claimed
                        totalValidatorRewardPoints validatorCommission
                        totalExposure nominatorExposure))
          end
        end
      end
    end
  end.

(** The whole loop, [payouts] being the array built so far. *)
Fixpoint payoutsLoop (address : string) (unclaimedOnly : bool)
    (eraData : IEraData.t) (totalEraRewardPoints : RewardPoint)
    (totalEraPayout : Balance) (entries : list ExposureWithCommission.t)
    (payouts : list IPayout.t) : Outcome (list IPayout.t) :=
  match entries with
  | [] => Ok payouts
  | x :: rest =>
      p ← payoutOf address unclaimedOnly eraData totalEraRewardPoints totalEraPayout x;
      payoutsLoop address unclaimedOnly eraData totalEraRewardPoints totalEraPayout rest
        (match p with Some p => payouts ++ [p] | None => payouts end)
  end.

(** [deriveEraPayouts(address, unclaimedOnly, eraData)]. *)
Definition deriveEraPayouts (address : string) (unclaimedOnly : bool)
    (eraData : IEraData.t) : Outcome EraPayoutsOrMessage :=
  match IEraData.exposuresWithCommission eraData with
  | None =>
      Ok (Message (address +:+ " has no nominations for the era "
                     +:+ pretty (IEraData.eraIndex eraData)))
  | Some exposuresWithCommission =>
      match IEraData.erasValidatorRewardOption eraData with
      | None =>
          Ok (Message ("No ErasValidatorReward for the era "
                         +:+ pretty (IEraData.eraIndex eraData)))
      | Some totalEraPayout =>
          let totalEraRewardPoints :=
            PalletStakingEraRewardPoints.total (IEraData.eraRewardPoints eraData) in
          payouts ← payoutsLoop address unclaimedOnly eraData totalEraRewardPoints
                      totalEraPayout exposuresWithCommission [];
          Ok (EraPayouts (IEraData.eraIndex eraData) totalEraRewardPoints
                totalEraPayout payouts)
      end
  end.

End Payouts.

(** ** The chain client *)

(** [EraPoints] of the oldest runtimes, what [currentEraPointsEarned()]
    returns.  It has no [nominators] field. *)
Module EraPoints.
Record t := mk { total : RewardPoint; individual : list RewardPoint }.
End EraPoints.

(** The part of [historicApi] (an [ApiDecoration] pinned at a block) that the
    service reads.  A member of [consts] or [query] that the runtime of that
    block does not define is [None]; a defined constant carries its value and
    a defined storage query the value it resolves to. *)
Module HistoricApi.
Record t := mk {
  consts_staking_historyDepth : option N;
  consts_staking_sessionsPerEra : N;
  consts_babe_epochDuration : N;
  query_staking_historyDepth : option N;
  query_staking_currentEra : option EraIndex;
  query_staking_erasRewardPoints : option (EraIndex → PalletStakingEraRewardPoints.t);
  query_staking_erasValidatorReward : EraIndex → option Balance;
  query_staking_erasStakersClipped_entries : EraIndex → KeysAndExposures;
  query_staking_erasValidatorPrefs_commission : EraIndex → AccountId → Perbill;
  query_staking_bonded : AccountId → option AccountId;
  query_staking_ledger : AccountId → option StakingLedger.t
}.
End HistoricApi.

(** The part of [this.api] that the service reads. *)
Module Api.
Record t := mk {
  rpc_chain_getHeader_number : BlockHash → N;
  rpc_chain_getBlockHash : Z → BlockHash;
  at_query_staking_currentEraPointsEarned : BlockHash → EraPoints.t
}.
End Api.

(** The requests sent to the node, one constructor per call site. *)
Inductive Query :=
| Q_getHeader (hash : BlockHash)
| Q_getBlockHash (blockNumber : Z)
| Q_historyDepth
| Q_currentEra
| Q_currentEraPointsEarned (hash : BlockHash)
| Q_erasStakersClipped_entries (eraIndex : EraIndex)
| Q_erasRewardPoints (eraIndex : EraIndex)
| Q_erasValidatorReward (eraIndex : EraIndex)
| Q_erasValidatorPrefs (era : EraIndex) (validatorId : AccountId)
| Q_bonded (validatorId : AccountId)
| Q_ledger (controller : AccountId).

(** The two requests that are not about the eras of the range: the header of
    the queried block and the retention limit. *)
Definition isPreamble (q : Query) : bool :=
  match q with
  | Q_getHeader _ | Q_historyDepth => true
  | _ => false
  end.

(** ** Request state and the monad of [async] functions *)

(** The state of a request: the ledger cache, the queries sent to the node so
    far, and for each [Promise.all] still to come the order in which its
    promises settle (positions in its array).  The last is not chosen by the
    program: the properties below hold for every value of it. *)
Module Request.
Record t := mk {
  validatorLedgerCache : gmap string StakingLedger.t;
  queries : list Query;
  completions : list (list nat)
}.
Definition init : t := mk ∅ [] [].

(** The state once a [Promise.all] has taken its order of completion. *)
Definition popCompletion (s : t) : t :=
  mk (validatorLedgerCache s) (queries s) (tail (completions s)).
End Request.

Definition M (A : Type) : Type := Request.t → Outcome A * Request.t.

Global Instance M_ret : MRet M := λ A a s, (Ok a, s).
Global Instance M_bind : MBind M := λ A B f m s,
  match m s with
  | (Ok a, s') => f a s'
  | (Throw e, s') => (Throw e, s')
  end.

(** [throw e]. *)
Definition throw {A} (e : Error) : M A := λ s, (Throw e, s).

(** A synchronous computation that may throw, inside an [async] function. *)
Definition liftOutcome {A} (o : Outcome A) : M A := λ s, (o, s).

(** A request [q] to the node, which answers [v]: the request is sent where
    [fetch] runs, and [v] is the value that its promise resolves to. *)
Definition fetch {A} (q : Query) (v : A) : M A := λ s,
  (Ok v, Request.mk (Request.validatorLedgerCache s) (Request.queries s ++ [q])
           (Request.completions s)).

(** [validatorLedgerCache = {}]. *)
Definition newCache : M unit := λ s,
  (Ok (), Request.mk ∅ (Request.queries s) (Request.completions s)).

(** [validatorLedgerCache[validatorId]], [None] when
    [validatorId in validatorLedgerCache] is false. *)
Definition cacheGet (validatorId : string) : M (option StakingLedger.t) := λ s,
  (Ok (Request.validatorLedgerCache s !! validatorId), s).

(** [validatorLedgerCache[validatorId] = validatorLedger]. *)
Definition cacheSet (validatorId : string) (validatorLedger : StakingLedger.t)
  : M unit := λ s,
  (Ok (), Request.mk (<[validatorId := validatorLedger]> (Request.validatorLedgerCache s))
            (Request.queries s) (Request.completions s)).

(** The order in which the promises of the next [Promise.all] settle. *)
Definition nextCompletion : M (list nat) := λ s,
  (Ok (default [] (head (Request.completions s))), Request.popCompletion s).

(** The promises of an array settle in the order [order]: what is left of
    the promise at each position named is run, unless the position is not
    one of the array or its promise has settled already, and its value is
    stored at its position in [settled]. *)
Fixpoint settle {A} (order : list nat) (promises : list (M A))
    (settled : list (option A)) : M (list (option A)) :=
  match order with
  | [] => mret settled
  | i :: order =>
      match promises !! i, settled !! i with
      | Some promise, Some None =>
          a ← promise;
          settle order promises (<[i := Some a]> settled)
      | _, _ => settle order promises settled
      end
  end.

(** [Promise.all(promises)]: the promises settle in the order that the
    request state gives, those that it does not name after the others in the
    order of the array; the result is the array of their values by position.
    A promise that rejects rejects the whole. *)
Definition Promise_all {A} (promises : list (M A)) : M (list A) :=
  order ← nextCompletion;
  settled ← settle (order ++ seq 0 (length promises)) promises
              (replicate (length promises) None);
  mret (omap id settled).

(** ** Fetching *)

(** A call [fetchCommissionAndLedger(historicApi, validatorId, era,
    validatorLedgerCache)]: the call tests the cache and sends the requests of
    the branch taken, and returns the promise.  On a miss what is left to run
    is the request for the ledger and the store in the cache. *)
Definition fetchCommissionAndLedger_promise (historicApi : HistoricApi.t)
    (validatorId : string) (era : Z) : M (M ICommissionAndLedger.t) :=
  let eraKey := JS.eraArgument era in
  let prefs_commission :=
    HistoricApi.query_staking_erasValidatorPrefs_commission historicApi eraKey validatorId in
  cached ← cacheGet validatorId;
  match cached with
  | Some validatorLedger =>
      commission ← fetch (Q_erasValidatorPrefs eraKey validatorId) prefs_commission;
      mret (mret (ICommissionAndLedger.mk commission (Some validatorLedger)))
  | None =>
      commission ← fetch (Q_erasValidatorPrefs eraKey validatorId) prefs_commission;
      validatorControllerOption ←
        fetch (Q_bonded validatorId) (HistoricApi.query_staking_bonded historicApi validatorId);
      mret
        match validatorControllerOption with
        | None => mret (ICommissionAndLedger.mk commission None)
        | Some controller =>
            validatorLedgerOption ←
              fetch (Q_ledger controller)
                (HistoricApi.query_staking_ledger historicApi controller);
            match validatorLedgerOption with
            | None => mret (ICommissionAndLedger.mk commission None)
            | Some validatorLedger =>
                _ ← cacheSet validatorId validatorLedger;
                mret (ICommissionAndLedger.mk commission (Some validatorLedger))
            end
        end
  end.

(** [await this.fetchCommissionAndLedger(historicApi, validatorId, era,
    validatorLedgerCache)]: the call, run to its end. *)
Definition fetchCommissionAndLedger (historicApi : HistoricApi.t)
    (validatorId : string) (era : Z) : M ICommissionAndLedger.t :=
  promise ← fetchCommissionAndLedger_promise historicApi validatorId era;
  promise.

(** The private [async deriveEraExposure(historicApi, eraIndex)]: one
    request; what is left to run when it is answered is [mapStakers], which
    touches nothing of the request state. *)
Definition deriveEraExposure (historicApi : HistoricApi.t) (eraIndex : EraIndex)
  : M DeriveEraExposure.t :=
  eraExposure ← fetch (Q_erasStakersClipped_entries eraIndex)
                  (HistoricApi.query_staking_erasStakersClipped_entries historicApi eraIndex);
  mret (mapStakers eraIndex eraExposure).

(** A call [fetchHistoricRewardPoints(blockNumber)]: the call asks for the
    hash of the block; what is left to run is the request for the points at
    that hash. *)
Definition fetchHistoricRewardPoints_promise (api : Api.t) (blockNumber : Z)
  : M (M EraPoints.t) :=
  hash ← fetch (Q_getBlockHash blockNumber) (Api.rpc_chain_getBlockHash api blockNumber);
  mret (fetch (Q_currentEraPointsEarned hash)
          (Api.at_query_staking_currentEraPointsEarned api hash)).

(** [await this.fetchHistoricRewardPoints(blockNumber)]. *)
Definition fetchHistoricRewardPoints (api : Api.t) (blockNumber : Z) : M EraPoints.t :=
  promise ← fetchHistoricRewardPoints_promise api blockNumber;
  promise.

(** An element of the array that [fetchAllErasGeneral] resolves to: the
    [IErasGeneral] triple where [erasRewardPoints] is available, the
    one-element tuple [[points]] of the other branch. *)
Inductive ErasGeneral :=
| ErasGeneralTuple (deriveEraExposure : DeriveEraExposure.t)
    (eraRewardPoints : PalletStakingEraRewardPoints.t)
    (erasValidatorRewardOption : option Balance)
| PointsTuple (points : EraPoints.t).

(** [eraGeneral[0]]. *)
Definition ErasGeneral_0 (eraGeneral : ErasGeneral) : DeriveEraExposure.t + EraPoints.t :=
  match eraGeneral with
  | ErasGeneralTuple deriveEraExposure _ _ => inl deriveEraExposure
  | PointsTuple points => inr points
  end.

(** The body of [for (let e = startEra; e <= era; e += 1)], [eras] being the
    values of [e] still to visit; [block] and [allDeriveQuerys] are the two
    variables the loop updates.  The [console.log] calls are left out.

    In the first branch the three requests of the era are sent when the
    tuple is made, and the three promises of the tuple have nothing left to
    run that touches the request state: [eraGeneralTuple] is the promise of
    their values.  In the second branch the call of
    [fetchHistoricRewardPoints] is not awaited before [currentEra] is asked
    for; [points] has settled when the tuple is pushed ([await points] at
    line 238), and the tuple is the promise of its value [awaited]. *)
Fixpoint fetchAllErasGeneral_loop (api : Api.t) (historicApi : HistoricApi.t)
    (eras : list Z) (block : Z) (allDeriveQuerys : list (M ErasGeneral))
  : M (list (M ErasGeneral)) :=
  match eras with
  | [] => mret allDeriveQuerys
  | e :: rest =>
      match HistoricApi.query_staking_erasRewardPoints historicApi with
      | Some erasRewardPoints =>
          eraIndex ← liftOutcome (createType_EraIndex e);
          exposure ← deriveEraExposure historicApi eraIndex;
          points ← fetch (Q_erasRewardPoints eraIndex) (erasRewardPoints eraIndex);
          reward ← fetch (Q_erasValidatorReward eraIndex)
                     (HistoricApi.query_staking_erasValidatorReward historicApi eraIndex);
          let eraGeneralTuple := mret (ErasGeneralTuple exposure points reward) in
          fetchAllErasGeneral_loop api historicApi rest block
            (allDeriveQuerys ++ [eraGeneralTuple])
      | None =>
          let sessionDuration := Z.of_N (HistoricApi.consts_staking_sessionsPerEra historicApi) in
          let epochDuration := Z.of_N (HistoricApi.consts_babe_epochDuration historicApi) in
          let eraDurationInBlocks := sessionDuration * epochDuration in
          points ← fetchHistoricRewardPoints_promise api block;
          erass ← fetch Q_currentEra (HistoricApi.query_staking_currentEra historicApi);
          let block := block - eraDurationInBlocks in
          awaited ← points;
          let eraGeneralTuple := mret (PointsTuple awaited) in
          fetchAllErasGeneral_loop api historicApi rest block
            (allDeriveQuerys ++ [eraGeneralTuple])
      end
  end.

(** [fetchAllErasGeneral(historicApi, startEra, era, blockNumber)]. *)
Definition fetchAllErasGeneral (api : Api.t) (historicApi : HistoricApi.t)
    (startEra era : Z) (blockNumber : N) : M (list ErasGeneral) :=
  let block := Z.of_N blockNumber in
  allDeriveQuerys ←
    fetchAllErasGeneral_loop api historicApi (seqZ startEra (era - startEra + 1)) block [];
  Promise_all allDeriveQuerys.

(** [this.deriveNominatedExposures(address, x)] where [x] is an element of
    [allErasGeneral.map((eraGeneral) => eraGeneral[0])]: on an [EraPoints]
    the read of [x.nominators[address]] throws. *)
Definition deriveNominatedExposures_of (address : string)
    (x : DeriveEraExposure.t + EraPoints.t)
  : Outcome (option (list DeriveEraExposureNominating.t)) :=
  match x with
  | inl deriveEraExposure => Ok (deriveNominatedExposures address deriveEraExposure)
  | inr _ => Throw (readOfUndefined address)
  end.

(** [fetchAllErasCommissions(historicApi, address, startEra,
    deriveErasExposures)].  The callback of [deriveErasExposures.map] runs for
    every era before any promise settles: it makes the calls of
    [fetchCommissionAndLedger] of the era, each of which runs up to its first
    [await], and returns the promise of their [Promise.all]. *)
Definition fetchAllErasCommissions (historicApi : HistoricApi.t) (address : string)
    (startEra : Z) (deriveErasExposures : list (DeriveEraExposure.t + EraPoints.t))
  : M (list (list ICommissionAndLedger.t)) :=
  _ ← newCache;
  allErasCommissions ←
    mapM id
      (imap (λ idx deriveEraExposure,
         let currEra := Z.of_nat idx + startEra in
         nominatedExposures ←
           liftOutcome (deriveNominatedExposures_of address deriveEraExposure);
         match nominatedExposures with
         | None => mret (mret [])
         | Some nominatedExposures =>
             singleEraCommissions ←
               mapM (λ n, fetchCommissionAndLedger_promise historicApi
                            (DeriveEraExposureNominating.validatorId n) currEra)
                 nominatedExposures;
             mret (Promise_all singleEraCommissions)
         end) deriveErasExposures);
  Promise_all allErasCommissions.

(** ** The entry point *)

(** The [at] member of the response.  [height] is kept as the number; the
    response prints it in base 10 and [fetchAllErasGeneral] reads it back
    with [Number(...)]. *)
Module At.
Record t := mk { height : N; hash : BlockHash }.
End At.

(** [IAccountStakingPayouts]: [{ at, erasPayouts }]. *)
Module IAccountStakingPayouts.
Record t := mk { at_ : At.t; erasPayouts : list EraPayoutsOrMessage }.
End IAccountStakingPayouts.

(** Lines 108-115: the retention limit. *)
Definition resolveHistoryDepth (historicApi : HistoricApi.t) (currentEra : Z) : M N :=
  let historyDepth := 84%N in
  match HistoricApi.consts_staking_historyDepth historicApi with
  | Some c => mret c
  | None =>
      match HistoricApi.query_staking_historyDepth historicApi with
      | Some v => fetch Q_historyDepth v
      | None => if currentEra <? 518 then mret 0%N else mret historyDepth
      end
  end.

Definition depthMessage : string := "Must specify a depth less than history_depth".

Definition eraMessage : string :=
  "Must specify era and depth such that era - (depth - 1) is less " +:+
  "than or equal to current_era - history_depth.".

Section Service.

Variable calc_payout :
  RewardPoint → Balance → RewardPoint → Perbill → Balance → Balance → bool → string.

(** The callback of [allErasGeneral.map(...)] at lines 153-176. *)
Definition eraDataOf (address : string) (startEra : Z)
    (allErasCommissions : list (list ICommissionAndLedger.t))
    (idx : nat) (eraGeneral : ErasGeneral) : Outcome IEraData.t :=
  match eraGeneral with
  | PointsTuple _ => Throw (readOfUndefined address)
  | ErasGeneralTuple deriveEraExposure eraRewardPoints erasValidatorRewardOption =>
      let eraCommissions := allErasCommissions !! idx in
      let nominatedExposures := deriveNominatedExposures address deriveEraExposure in
      exposuresWithCommission ←
        match nominatedExposures with
        | None => Ok None
        | Some nominatedExposures =>
            Some <$> mapM id
              (imap (λ idx n,
                 match eraCommissions with
                 | None => Throw (readOfUndefined (pretty idx))
                 | Some eraCommissions =>
                     Ok (ExposureWithCommission.mk
                           (DeriveEraExposureNominating.validatorId n)
                           (eraCommissions !! idx))
                 end) nominatedExposures)
        end;
      eraIndex ← createType_EraIndex (Z.of_nat idx + startEra);
      Ok (IEraData.mk deriveEraExposure eraRewardPoints erasValidatorRewardOption
            exposuresWithCommission eraIndex)
  end.

(** [fetchAccountStakingPayout(hash, address, depth, era, unclaimedOnly,
    currentEra, historicApi)].  The handler given to [.catch] at line 148
    runs when the promise that [fetchAllErasCommissions] returns rejects.
    Here the node answers every request and that promise resolves; an
    exception that [fetchAllErasCommissions] throws before it returns a
    promise, in the callback of its [map], does not go through the handler. *)
Definition fetchAccountStakingPayout (api : Api.t) (hash : BlockHash)
    (address : string) (depth era : Z) (unclaimedOnly : bool) (currentEra : Z)
    (historicApi : HistoricApi.t) : M IAccountStakingPayouts.t :=
  number ← fetch (Q_getHeader hash) (Api.rpc_chain_getHeader_number api hash);
  historyDepth ← resolveHistoryDepth historicApi currentEra;
  let historyDepth_toNumber := Z.of_N historyDepth in
  if negb (historyDepth_toNumber =? 0) && (depth >? historyDepth_toNumber) then
    throw (BadRequest depthMessage)
  else if (era - (depth - 1) <? currentEra - historyDepth_toNumber)
          && negb (historyDepth_toNumber =? 0) then
    throw (BadRequest eraMessage)
  else
    let at_ := At.mk number hash in
    let startEra := JS.Math_max 0 (era - (depth - 1)) in
    allErasGeneral ← fetchAllErasGeneral api historicApi startEra era (At.height at_);
    allErasCommissions ←
      fetchAllErasCommissions historicApi address startEra
        (map ErasGeneral_0 allErasGeneral);
    allEraData ←
      liftOutcome (mapM id (imap (eraDataOf address startEra allErasCommissions) allErasGeneral));
    erasPayouts ←
      liftOutcome (mapM (deriveEraPayouts calc_payout address unclaimedOnly) allEraData);
    mret (IAccountStakingPayouts.mk at_ erasPayouts).

End Service.

(** ** The per-era view of the pipeline

    What the entry point computes for one era, written without the request
    state: the record that [fetchCommissionAndLedger] resolves to, the
    [IEraData] assembled for the era, and the payouts derived from it.  The
    theorems below relate the stateful code to these. *)

(** The value of [fetchCommissionAndLedger(historicApi, validatorId, era, _)]
    read straight from the chain. *)
Definition commissionAndLedgerAt (historicApi : HistoricApi.t) (eraIndex : EraIndex)
    (validatorId : string) : ICommissionAndLedger.t :=
  ICommissionAndLedger.mk
    (HistoricApi.query_staking_erasValidatorPrefs_commission historicApi eraIndex validatorId)
    (controller ← HistoricApi.query_staking_bonded historicApi validatorId;
     HistoricApi.query_staking_ledger historicApi controller).

(** The [IErasGeneral] triple of one era. *)
Definition erasGeneralAt (historicApi : HistoricApi.t)
    (erasRewardPoints : EraIndex → PalletStakingEraRewardPoints.t)
    (eraIndex : EraIndex) : ErasGeneral :=
  ErasGeneralTuple
    (mapStakers eraIndex
       (HistoricApi.query_staking_erasStakersClipped_entries historicApi eraIndex))
    (erasRewardPoints eraIndex)
    (HistoricApi.query_staking_erasValidatorReward historicApi eraIndex).

(** The [IEraData] of one era for [address]. *)
Definition eraDataAt (historicApi : HistoricApi.t)
    (erasRewardPoints : EraIndex → PalletStakingEraRewardPoints.t)
    (address : string) (eraIndex : EraIndex) : IEraData.t :=
  let deriveEraExposure :=
    mapStakers eraIndex
      (HistoricApi.query_staking_erasStakersClipped_entries historicApi eraIndex) in
  IEraData.mk deriveEraExposure (erasRewardPoints eraIndex)
    (HistoricApi.query_staking_erasValidatorReward historicApi eraIndex)
    (map (λ n,
            let validatorId := DeriveEraExposureNominating.validatorId n in
            ExposureWithCommission.mk validatorId
              (Some (commissionAndLedgerAt historicApi eraIndex validatorId)))
       <$> deriveNominatedExposures address deriveEraExposure)
    eraIndex.

(** What [fetchAllErasCommissions] resolves to for one era. *)
Definition commissionsAt (historicApi : HistoricApi.t) (address : string)
    (eraIndex : EraIndex) (deriveEraExposure : DeriveEraExposure.t)
  : list ICommissionAndLedger.t :=
  match deriveNominatedExposures address deriveEraExposure with
  | Some nominatedExposures =>
      (λ n, commissionAndLedgerAt historicApi eraIndex
              (DeriveEraExposureNominating.validatorId n)) <$> nominatedExposures
  | None => []
  end.

(** What the entry point answers for the eras [eras] on a runtime with
    [erasRewardPoints]: the codec takes the number of each era, and the
    payouts of each era are derived from its data. *)
Definition erasPayoutsAt
    (calc_payout :
       RewardPoint → Balance → RewardPoint → Perbill → Balance → Balance → bool → string)
    (historicApi : HistoricApi.t)
    (erasRewardPoints : EraIndex → PalletStakingEraRewardPoints.t)
    (address : string) (unclaimedOnly : bool) (eras : list Z)
  : Outcome (list EraPayoutsOrMessage) :=
  eraIndexes ← mapM createType_EraIndex eras;
  mapM (λ eraIndex,
          deriveEraPayouts calc_payout address unclaimedOnly
            (eraDataAt historicApi erasRewardPoints address eraIndex)) eraIndexes.

(** The requests of the eras [eras] on a runtime with [erasRewardPoints]. *)
Definition erasGeneralQueries (eras : list Z) : list Query :=
  e ← eras;
  [Q_erasStakersClipped_entries (Z.to_N e); Q_erasRewardPoints (Z.to_N e);
   Q_erasValidatorReward (Z.to_N e)].

(** The requests of the eras on a runtime without [erasRewardPoints],
    [block] being the block of the first. *)
Fixpoint historicQueries (api : Api.t) (eraDurationInBlocks : Z) (eras : list Z) (block : Z)
  : list Query :=
  match eras with
  | [] => []
  | _ :: rest =>
      [Q_getBlockHash block; Q_currentEra;
       Q_currentEraPointsEarned (Api.rpc_chain_getBlockHash api block)] ++
      historicQueries api eraDurationInBlocks rest (block - eraDurationInBlocks)
  end.

(** The points of the eras on such a runtime. *)
Fixpoint historicPoints (api : Api.t) (eraDurationInBlocks : Z) (eras : list Z) (block : Z)
  : list EraPoints.t :=
  match eras with
  | [] => []
  | _ :: rest =>
      Api.at_query_staking_currentEraPointsEarned api (Api.rpc_chain_getBlockHash api block) ::
      historicPoints api eraDurationInBlocks rest (block - eraDurationInBlocks)
  end.





(** The condition under which lines 117-128 throw. *)
Definition rangeRefused (depth era currentEra : Z) (historyDepth : N) : Prop :=
  Z.of_N historyDepth ≠ 0 ∧
  (depth > Z.of_N historyDepth ∨
   era - (depth - 1) < currentEra - Z.of_N historyDepth).

(** The ledger cache only ever holds what the chain holds. *)
Definition cacheCoherent (historicApi : HistoricApi.t) (s : Request.t) : Prop :=
  ∀ validatorId validatorLedger,
    Request.validatorLedgerCache s !! validatorId = Some validatorLedger →
    (controller ← HistoricApi.query_staking_bonded historicApi validatorId;
     HistoricApi.query_staking_ledger historicApi controller) = Some validatorLedger.

(** The validator identities of a list of nominated exposures. *)
Definition validatorIds (l : list DeriveEraExposureNominating.t) : list AccountId :=
  DeriveEraExposureNominating.validatorId <$> l.

(** The [validatorId] of the [i]-th raw entry of [erasStakersClipped]. *)
Definition stakerId (entry : StorageKey.t * PalletStakingExposure.t) : AccountId :=
  snd (StorageKey.args (fst entry)).

(** The accounts named in the [others] of a raw entry. *)
Definition othersWho (entry : StorageKey.t * PalletStakingExposure.t) : list AccountId :=
  IndividualExposure.who <$> PalletStakingExposure.others (snd entry).

(** The validators that name [address] in their [others], in the order of the
    raw entries, once per occurrence. *)
Definition explicitNominations (address : string) (stakers : KeysAndExposures)
  : list AccountId :=
  entry ← stakers;
  (λ _, stakerId entry) <$> filter (λ who, who = address) (othersWho entry).

(** A ledger record shows one of the three layouts. *)
Definition hasKnownShape (validatorLedger : StakingLedger.t) : Prop :=
  is_Some (StakingLedger.legacyClaimedRewards validatorLedger) ∨
  is_Some (StakingLedger.claimedRewards validatorLedger) ∨
  is_Some (StakingLedger.lastReward validatorLedger).

(** ** A small chain for the examples

    Two validators, [V] and [W], backed by the nominator [A] in every era;
    [V] also backs [W], and [B] backs nobody.  The ledger of [V] is of the
    oldest layout (a single [lastReward]), the ledger of [W] shows a
    [legacyClaimedRewards] set. *)
Module Example.
Local Open Scope N_scope.

(** An instance of the payout primitive to run the examples with: the split
    between validator and nominators, every division rounded down. *)
Definition calc_payout (total_reward_points : RewardPoint) (era_payout : Balance)
    (validator_reward_points : RewardPoint) (validator_commission : Perbill)
    (nominator_exposure total_exposure : Balance) (is_validator : bool) : string :=
  let validator_total_payout :=
    (era_payout * validator_reward_points / total_reward_points)%N in
  let validator_commission_payout :=
    (validator_total_payout * validator_commission / 1000000000)%N in
  let validator_leftover_payout :=
    (validator_total_payout - validator_commission_payout)%N in
  let own_exposure_part :=
    (validator_leftover_payout * nominator_exposure / total_exposure)%N in
  pretty (if is_validator then (own_exposure_part + validator_commission_payout)%N
          else own_exposure_part).

Definition exposureV : PalletStakingExposure.t :=
  PalletStakingExposure.mk 1000 800 [IndividualExposure.mk "A" 200].

Definition exposureW : PalletStakingExposure.t :=
  PalletStakingExposure.mk 400 250
    [IndividualExposure.mk "A" 100; IndividualExposure.mk "V" 50].

Definition stakers (eraIndex : EraIndex) : KeysAndExposures :=
  [(StorageKey.mk (eraIndex, "V"), exposureV);
   (StorageKey.mk (eraIndex, "W"), exposureW)].

Definition rewardPoints (eraIndex : EraIndex) : PalletStakingEraRewardPoints.t :=
  PalletStakingEraRewardPoints.mk 1000 [("V", 500%N); ("W", 250%N)].

Definition ledgerV : StakingLedger.t := StakingLedger.mk None None (Some (Some 5%N)).

Definition ledgerW : StakingLedger.t := StakingLedger.mk (Some [99%N; 100%N]) None None.

Definition bonded (validatorId : AccountId) : option AccountId :=
  if decide (validatorId = "V") then Some "Vc"
  else if decide (validatorId = "W") then Some "Wc" else None.

Definition ledger (controller : AccountId) : option StakingLedger.t :=
  if decide (controller = "Vc") then Some ledgerV
  else if decide (controller = "Wc") then Some ledgerW else None.

(** A runtime with the [historyDepth] constant and [erasRewardPoints]. *)
Definition historicApi : HistoricApi.t :=
  HistoricApi.mk (Some 84%N) 6 2400 None (Some 100%N)
    (Some rewardPoints) (λ _, Some 1000000%N) stakers
    (λ _ _, 100000000%N) bonded ledger.

(** The same chain seen through a runtime that has neither the constant nor
    the storage item for the retention limit. *)
Definition oldApi : HistoricApi.t :=
  HistoricApi.mk None 6 2400 None (Some 100%N)
    (Some rewardPoints) (λ _, Some 1000000%N) stakers
    (λ _ _, 100000000%N) bonded ledger.

Definition api : Api.t :=
  Api.mk (λ _, 1234%N) (λ _, "0xb10c") (λ _, EraPoints.mk 0 []).

(** A validator whose [others] names the validator itself. *)
Definition selfNominated : KeysAndExposures :=
  [(StorageKey.mk (1%N, "V"),
    PalletStakingExposure.mk 1000 800 [IndividualExposure.mk "V" 200])].

(** A ledger of the layout of [StakingLedger] that also shows a scalar:
    the set [claimedRewards = [5]] and [lastReward = 9]. *)
Definition setAndScalar : StakingLedger.t :=
  StakingLedger.mk None (Some [5%N]) (Some (Some 9%N)).

End Example.

(** * Properties *)

(** A decidable fact about concrete data, settled by evaluation. *)
Ltac by_decide := apply (bool_decide_unpack _); vm_compute; reflexivity.

(** ** Claim resolution *)

Lemma indexOf_from_spec (l : list N) (x : N) (i : Z) :
  0 ≤ i →
  (x ∈ l → i ≤ JS.indexOf_from i l x) ∧ (x ∉ l → JS.indexOf_from i l x = -1).
Proof.
  revert i. induction l as [|y l IH]; intros i Hi; simpl.
  - split; [intros H; by apply elem_of_nil in H | done].
  - destruct (N.eqb_spec y x) as [->|Hne].
    + split; [lia | intros H; exfalso; apply H; left].
    + destruct (IH (i + 1)) as [IH1 IH2]; [lia|]. split.
      * intros [?|Hin]%elem_of_cons; [congruence|]. specialize (IH1 Hin). lia.
      * intros Hnin. apply IH2. intros Hin. apply Hnin. by right.
Qed.

Lemma claimedOf_indexOf (l : list N) (x : N) :
  claimedOf (JS.indexOf l x) = bool_decide (x ∈ l).
Proof.
  unfold claimedOf, JS.indexOf, JS.Number_isInteger. simpl.
  destruct (indexOf_from_spec l x 0) as [H1 H2]; [lia|].
  case_bool_decide as Hin.
  - specialize (H1 Hin). apply negb_true_iff, Z.eqb_neq. lia.
  - rewrite (H2 Hin). done.
Qed.

Lemma claimedOf_of_N (e : N) : claimedOf (Z.of_N e) = true.
Proof.
  unfold claimedOf, JS.Number_isInteger. simpl.
  apply negb_true_iff, Z.eqb_neq. lia.
Qed.

(** ** The payout loop *)

Lemma extractExposure_Ok address validatorId d exposure :
  DeriveEraExposure.validators d !! validatorId = Some exposure →
  extractExposure address validatorId d =
    Ok (PalletStakingExposure.total exposure,
        if decide (address = validatorId) then Some (PalletStakingExposure.own exposure)
        else IndividualExposure.value <$>
               Array_find (λ o, bool_decide (IndividualExposure.who o = address))
                 (PalletStakingExposure.others exposure)).
Proof.
  intros H. unfold extractExposure. rewrite H.
  destruct (decide (address = validatorId)) as [->|]; [by rewrite H | done].
Qed.

Lemma extractExposure_Throw address validatorId d :
  DeriveEraExposure.validators d !! validatorId = None →
  extractExposure address validatorId d = Throw (readOfUndefined "total").
Proof. intros H. unfold extractExposure. by rewrite H. Qed.

Section PayoutLoop.

Variable calc_payout :
  RewardPoint → Balance → RewardPoint → Perbill → Balance → Balance → bool → string.

Variables (address : string) (eraData : IEraData.t).
Variables (totalEraRewardPoints : RewardPoint) (totalEraPayout : Balance).

Local Abbreviation payoutOf' u := (payoutOf calc_payout address u eraData totalEraRewardPoints totalEraPayout).
Local Abbreviation payoutsLoop' u :=
  (payoutsLoop calc_payout address u eraData totalEraRewardPoints totalEraPayout).

(** What is known of an element that produced a payout. *)
Lemma payoutOf_Some unclaimedOnly x p :
  payoutOf' unclaimedOnly x = Ok (Some p) →
  IPayout.validatorId p = ExposureWithCommission.validatorId x ∧
  extractTotalValidatorRewardPoints (IEraData.eraRewardPoints eraData)
    (IPayout.validatorId p) = Some (IPayout.totalValidatorRewardPoints p) ∧
  IPayout.totalValidatorRewardPoints p ≠ 0%N ∧
  extractExposure address (IPayout.validatorId p) (IEraData.deriveEraExposure eraData) =
    Ok (IPayout.totalValidatorExposure p, Some (IPayout.nominatorExposure p)) ∧
  (∃ validatorLedger indexOfEra,
     ExposureWithCommission.validatorLedger x = Some validatorLedger ∧
     ExposureWithCommission.commission x = Some (IPayout.validatorCommission p) ∧
     resolveIndexOfEra validatorLedger (IEraData.eraIndex eraData) = Some indexOfEra ∧
     IPayout.claimed p = claimedOf indexOfEra ∧
     (unclaimedOnly = true → IPayout.claimed p = false)).
Proof.
  unfold payoutOf, ExposureWithCommission.validatorLedger, ExposureWithCommission.commission.
  destruct (extractTotalValidatorRewardPoints _ _) as [pts|] eqn:Hpts; [|done].
  destruct (N.eqb_spec pts 0) as [|Hnz]; [done|].
  destruct (extractExposure _ _ _) as [[tot [ne|]]|] eqn:Hexp; simpl; [|done..].
  destruct (ExposureWithCommission.spread x) as [c|]; simpl; [|done].
  destruct (ICommissionAndLedger.validatorLedger c) as [ledger|]; [|done].
  destruct (resolveIndexOfEra _ _) as [i|] eqn:Hres; [|done].
  destruct (unclaimedOnly && claimedOf i) eqn:Hskip; [done|].
  intros [= <-]; simpl. repeat split; try done.
  exists ledger, i. repeat split; try done.
  intros ->. simpl in Hskip. done.
Qed.

(** An element whose validator is in the exposure graph never throws. *)
Lemma payoutOf_no_throw unclaimedOnly x :
  is_Some (DeriveEraExposure.validators (IEraData.deriveEraExposure eraData)
             !! ExposureWithCommission.validatorId x) →
  ∃ o, payoutOf' unclaimedOnly x = Ok o.
Proof.
  intros [exposure H]. unfold payoutOf.
  destruct (extractTotalValidatorRewardPoints _ _) as [pts|]; [|by eexists].
  destruct (pts =? 0)%N; [by eexists|].
  rewrite (extractExposure_Ok _ _ _ _ H). simpl.
  repeat (case_match; try by eexists).
Qed.

(** The elements the loop skips, whatever [unclaimedOnly]. *)
Lemma payoutOf_skip unclaimedOnly x :
  let validatorId := ExposureWithCommission.validatorId x in
  let points := extractTotalValidatorRewardPoints (IEraData.eraRewardPoints eraData) validatorId in
  points = None ∨ points = Some 0%N ∨
  (is_Some (DeriveEraExposure.validators (IEraData.deriveEraExposure eraData) !! validatorId) ∧
   ((∃ tot, extractExposure address validatorId (IEraData.deriveEraExposure eraData)
              = Ok (tot, None)) ∨
    ExposureWithCommission.validatorLedger x = None ∨
    (∃ validatorLedger, ExposureWithCommission.validatorLedger x = Some validatorLedger ∧
                        ¬ hasKnownShape validatorLedger))) →
  payoutOf' unclaimedOnly x = Ok None.
Proof.
  intros validatorId points. subst validatorId points.
  unfold payoutOf, ExposureWithCommission.validatorLedger.
  intros [->|[->|[[exposure Hv] H]]]; [done..|].
  destruct (extractTotalValidatorRewardPoints _ _) as [pts|]; [|done].
  destruct (pts =? 0)%N; [done|].
  destruct (extractExposure _ _ _) as [[tot [ne|]]|] eqn:Hexp; simpl; [|done|].
  - destruct H as [[tot' [=]]|[H|(ledger & H & Hshape)]].
    + destruct (ExposureWithCommission.spread x) as [c|]; simpl in *; [|done].
      by rewrite H.
    + destruct (ExposureWithCommission.spread x) as [c|]; simpl in *; [|done].
      rewrite H. unfold resolveIndexOfEra.
      destruct ledger as [[l|] [c'|] [r|]]; simpl;
        try (exfalso; apply Hshape; unfold hasKnownShape; simpl; eauto; fail).
      done.
  - rewrite (extractExposure_Ok _ _ _ _ Hv) in Hexp. done.
Qed.

(** The payouts pushed by the loop come from its elements. *)
Lemma payoutsLoop_elem unclaimedOnly entries acc payouts :
  payoutsLoop' unclaimedOnly entries acc = Ok payouts →
  ∀ p, p ∈ payouts →
    p ∈ acc ∨ ∃ x, x ∈ entries ∧ payoutOf' unclaimedOnly x = Ok (Some p).
Proof.
  revert acc. induction entries as [|x rest IH]; intros acc; simpl.
  - intros [= <-] p Hp. by left.
  - destruct (payoutOf' unclaimedOnly x) as [o|] eqn:Hx; simpl; [|done].
    intros Hloop p Hp. destruct (IH _ Hloop p Hp) as [Hacc|(y & Hy & Hpy)].
    + destruct o as [q|].
      * apply elem_of_app in Hacc as [?|Heq%list_elem_of_singleton]; [by left|].
        subst q. right. exists x. split; [left | done].
      * by left.
    + right. exists y. split; [by right | done].
Qed.

(** The loop does not throw when every validator is in the exposure graph. *)
Lemma payoutsLoop_no_throw unclaimedOnly entries acc :
  Forall (λ x, is_Some (DeriveEraExposure.validators (IEraData.deriveEraExposure eraData)
                          !! ExposureWithCommission.validatorId x)) entries →
  ∃ payouts, payoutsLoop' unclaimedOnly entries acc = Ok payouts.
Proof.
  intros H. revert acc. induction H as [|x rest Hx _ IH]; intros acc; simpl.
  - by eexists.
  - destruct (payoutOf_no_throw unclaimedOnly x Hx) as [o ->]. simpl. apply IH.
Qed.

(** [unclaimedOnly] only adds a filter on the claimed flag. *)
Lemma payoutOf_unclaimedOnly x :
  payoutOf' true x =
    match payoutOf' false x with
    | Ok (Some p) => if IPayout.claimed p then Ok None else Ok (Some p)
    | o => o
    end.
Proof.
  unfold payoutOf.
  destruct (extractTotalValidatorRewardPoints _ _) as [pts|]; [|done].
  destruct (pts =? 0)%N; [done|].
  destruct (extractExposure _ _ _) as [[tot [ne|]]|]; simpl; [|done..].
  destruct (ExposureWithCommission.spread x) as [c|]; simpl; [|done].
  destruct (ICommissionAndLedger.validatorLedger c) as [ledger|]; [|done].
  destruct (resolveIndexOfEra _ _) as [i|]; [|done].
  simpl. by destruct (claimedOf i).
Qed.

Lemma payoutsLoop_unclaimedOnly entries acc payouts :
  payoutsLoop' false entries acc = Ok payouts →
  payoutsLoop' true entries (filter (λ p, IPayout.claimed p = false) acc) =
    Ok (filter (λ p, IPayout.claimed p = false) payouts).
Proof.
  revert acc. induction entries as [|x rest IH]; intros acc; simpl.
  - by intros [= <-].
  - rewrite payoutOf_unclaimedOnly.
    destruct (payoutOf' false x) as [[p|]|]; simpl; [| |done].
    + intros H%IH. rewrite filter_app in H.
      destruct (IPayout.claimed p) eqn:Hc; simpl.
      * rewrite filter_cons_False in H; [|by rewrite Hc].
        by rewrite filter_nil, app_nil_r in H.
      * rewrite filter_cons_True in H by done. by rewrite filter_nil in H.
    + apply IH.
Qed.

End PayoutLoop.

Lemma resolveIndexOfEra_shape validatorLedger eraIndex indexOfEra :
  resolveIndexOfEra validatorLedger eraIndex = Some indexOfEra →
  hasKnownShape validatorLedger.
Proof.
  unfold resolveIndexOfEra, hasKnownShape.
  destruct validatorLedger as [[l|] [c|] [r|]]; simpl; eauto. done.
Qed.

Lemma deriveEraPayouts_inv calc_payout address unclaimedOnly eraData
    era totalEraRewardPoints totalEraPayout payouts :
  deriveEraPayouts calc_payout address unclaimedOnly eraData =
    Ok (EraPayouts era totalEraRewardPoints totalEraPayout payouts) →
  ∃ exposuresWithCommission,
    IEraData.exposuresWithCommission eraData = Some exposuresWithCommission ∧
    IEraData.erasValidatorRewardOption eraData = Some totalEraPayout ∧
    totalEraRewardPoints = PalletStakingEraRewardPoints.total (IEraData.eraRewardPoints eraData) ∧
    era = IEraData.eraIndex eraData ∧
    payoutsLoop calc_payout address unclaimedOnly eraData totalEraRewardPoints
      totalEraPayout exposuresWithCommission [] = Ok payouts.
Proof.
  unfold deriveEraPayouts.
  destruct (IEraData.exposuresWithCommission eraData) as [ewc|]; [|done].
  destruct (IEraData.erasValidatorRewardOption eraData) as [reward|]; [|done].
  destruct (payoutsLoop _ _ _ _ _ _ _ _) as [ps|] eqn:Hloop; simpl; [|done].
  intros [= <- <- <- <-]. by exists ewc.
Qed.

Lemma deriveEraPayouts_no_throw calc_payout address unclaimedOnly eraData :
  (∀ exposuresWithCommission,
     IEraData.exposuresWithCommission eraData = Some exposuresWithCommission →
     Forall (λ x, is_Some (DeriveEraExposure.validators (IEraData.deriveEraExposure eraData)
                             !! ExposureWithCommission.validatorId x))
       exposuresWithCommission) →
  ∃ result, deriveEraPayouts calc_payout address unclaimedOnly eraData = Ok result.
Proof.
  intros H. unfold deriveEraPayouts.
  destruct (IEraData.exposuresWithCommission eraData) as [ewc|]; [|by eexists].
  destruct (IEraData.erasValidatorRewardOption eraData) as [reward|]; [|by eexists].
  destruct (payoutsLoop_no_throw calc_payout address eraData
              (PalletStakingEraRewardPoints.total (IEraData.eraRewardPoints eraData))
              reward unclaimedOnly ewc [] (H _ eq_refl)) as [ps ->].
  by eexists.
Qed.

(** ** The exposure graph *)

Lemma forEachOther_ids validatorId others validatorIndex nominators address :
  validatorIds (default [] (forEachOther validatorId others validatorIndex nominators !! address)) =
  validatorIds (default [] (nominators !! address)) ++
    ((λ _, validatorId) <$> filter (λ who, who = address) (IndividualExposure.who <$> others)).
Proof.
  revert validatorIndex nominators.
  induction others as [|o rest IH]; intros i n; simpl.
  - by rewrite app_nil_r.
  - rewrite IH. destruct (decide (IndividualExposure.who o = address)) as [Heq|Hne].
    + rewrite filter_cons_True by done. rewrite Heq, lookup_insert_eq. simpl.
      unfold validatorIds. rewrite fmap_app. simpl. by rewrite <-app_assoc.
    + rewrite filter_cons_False by done. by rewrite lookup_insert_ne.
Qed.

Lemma forEachStaker_ids stakers nominators validators address :
  validatorIds (default [] ((forEachStaker stakers nominators validators).1 !! address)) =
  validatorIds (default [] (nominators !! address)) ++ explicitNominations address stakers.
Proof.
  revert nominators validators.
  induction stakers as [|[key exposure] rest IH]; intros n vs; simpl.
  - by rewrite app_nil_r.
  - rewrite IH, forEachOther_ids. unfold explicitNominations.
    by rewrite <-app_assoc.
Qed.

Lemma forEachStaker_validators stakers nominators validators address :
  is_Some ((forEachStaker stakers nominators validators).2 !! address) ↔
  is_Some (validators !! address) ∨ address ∈ stakerId <$> stakers.
Proof.
  revert nominators validators.
  induction stakers as [|[key exposure] rest IH]; intros n vs; simpl.
  - split; [by left | intros [?|H]; [done | by apply elem_of_nil in H]].
  - rewrite IH, elem_of_cons. unfold stakerId at 2. simpl.
    destruct (decide (snd (StorageKey.args key) = address)) as [<-|Hne].
    + rewrite lookup_insert_eq. split; [intros _; right; by left | eauto].
    + rewrite lookup_insert_ne by done.
      split; [intros [?|?]; auto | intros [?|[Heq|?]]; auto; by destruct Hne].
Qed.

Lemma mapStakers_nominators era stakers address :
  validatorIds (default [] (DeriveEraExposure.nominators (mapStakers era stakers) !! address)) =
  explicitNominations address stakers.
Proof.
  unfold mapStakers.
  pose proof (forEachStaker_ids stakers ∅ ∅ address) as H.
  destruct (forEachStaker stakers ∅ ∅) as [n vs]. simpl in *.
  by rewrite H, lookup_empty.
Qed.

Lemma mapStakers_validators era stakers address :
  is_Some (DeriveEraExposure.validators (mapStakers era stakers) !! address) ↔
  address ∈ stakerId <$> stakers.
Proof.
  unfold mapStakers.
  pose proof (forEachStaker_validators stakers ∅ ∅ address) as H.
  destruct (forEachStaker stakers ∅ ∅) as [n vs]. simpl in *.
  rewrite H, lookup_empty. split; [intros [[? [=]]|?]; done | by right].
Qed.

(** What [deriveNominatedExposures] returns on the graph of [mapStakers]:
    the explicit nominations, then the address itself when it is a
    validator.  It never returns [undefined]. *)
Lemma deriveNominatedExposures_ids address era stakers :
  ∃ l, deriveNominatedExposures address (mapStakers era stakers) = Some l ∧
       validatorIds l =
         explicitNominations address stakers ++
         (if decide (address ∈ stakerId <$> stakers) then [address] else []).
Proof.
  unfold deriveNominatedExposures. eexists. split; [done|].
  pose proof (mapStakers_nominators era stakers address) as Hn.
  pose proof (mapStakers_validators era stakers address) as Hv.
  destruct (DeriveEraExposure.validators (mapStakers era stakers) !! address) as [exposure|].
  - rewrite decide_True by (apply Hv; eauto).
    unfold validatorIds in *. by rewrite fmap_app, Hn.
  - rewrite decide_False by (intros [? [=]]%Hv). by rewrite app_nil_r.
Qed.

Lemma deriveNominatedExposures_Some address d :
  is_Some (deriveNominatedExposures address d).
Proof. unfold deriveNominatedExposures. eauto. Qed.

Lemma explicitNominations_stakers address stakers validatorId :
  validatorId ∈ explicitNominations address stakers →
  ∃ entry, entry ∈ stakers ∧ stakerId entry = validatorId ∧ address ∈ othersWho entry.
Proof.
  unfold explicitNominations. intros (entry & Hin & Hentry)%list_elem_of_bind.
  apply list_elem_of_fmap in Hin as (who & -> & Hwho).
  apply list_elem_of_filter in Hwho as [-> Hwho]. eauto.
Qed.

(** Every validator that [deriveNominatedExposures] lists is a key of
    [validators] in the graph of [mapStakers]. *)
Lemma deriveNominatedExposures_inGraph address era stakers l :
  deriveNominatedExposures address (mapStakers era stakers) = Some l →
  Forall (λ n, is_Some (DeriveEraExposure.validators (mapStakers era stakers)
                          !! DeriveEraExposureNominating.validatorId n)) l.
Proof.
  intros Hl. destruct (deriveNominatedExposures_ids address era stakers) as (l' & Hl' & Hids).
  assert (l' = l) as -> by congruence.
  apply Forall_forall. intros n Hn. apply mapStakers_validators.
  assert (DeriveEraExposureNominating.validatorId n ∈ validatorIds l) as Hid
    by (by apply list_elem_of_fmap_2).
  rewrite Hids in Hid. apply elem_of_app in Hid as [Hid|Hid].
  - apply explicitNominations_stakers in Hid as (entry & Hentry & <- & _).
    by apply list_elem_of_fmap_2.
  - case_decide; [|by apply elem_of_nil in Hid].
    by apply list_elem_of_singleton in Hid as ->.
Qed.

(** When no [others] list repeats a nominator, the explicit nominations are
    the validators whose [others] names the address, each once. *)
Lemma explicitNominations_filter address stakers :
  Forall (λ entry, NoDup (othersWho entry)) stakers →
  explicitNominations address stakers =
    stakerId <$> filter (λ entry, address ∈ othersWho entry) stakers.
Proof.
  unfold explicitNominations.
  induction 1 as [|entry rest Hnd _ IH]; [done|].
  rewrite bind_cons, IH. destruct (decide (address ∈ othersWho entry)) as [Hin|Hnin].
  - rewrite filter_cons_True by done. rewrite fmap_cons. f_equal.
    revert Hnd Hin. generalize (othersWho entry). intros l Hnd Hin.
    induction Hnd as [|w l Hw Hnd IHl]; [by apply elem_of_nil in Hin|].
    destruct (decide (w = address)) as [->|Hne].
    + rewrite filter_cons_True by done. simpl. f_equal.
      clear IHl Hin Hnd. induction l as [|w' l IHl]; [done|].
      rewrite filter_cons_False; [apply IHl; intros H; apply Hw; by right|].
      intros ->. apply Hw. left.
    + rewrite filter_cons_False by done. apply IHl.
      apply elem_of_cons in Hin as [?|?]; [congruence | done].
  - rewrite filter_cons_False by done.
    replace (filter (λ who, who = address) (othersWho entry)) with (@nil AccountId); [done|].
    symmetry. revert Hnin. generalize (othersWho entry). intros l Hnin.
    induction l as [|w l IHl]; [done|].
    rewrite filter_cons_False; [apply IHl; intros H; apply Hnin; by right|].
    intros ->. apply Hnin. left.
Qed.

(** ** Running [async] code *)

Lemma bind_run {A B} (m : M A) (f : A → M B) (s : Request.t) :
  (m ≫= f) s =
    match m s with
    | (Ok a, s') => f a s'
    | (Throw e, s') => (Throw e, s')
    end.
Proof. reflexivity. Qed.

Lemma bind_Ok {A B} (m : M A) (f : A → M B) s a s' :
  m s = (Ok a, s') → (m ≫= f) s = f a s'.
Proof. intros H. by rewrite bind_run, H. Qed.

Lemma bind_Throw {A B} (m : M A) (f : A → M B) s e s' :
  m s = (Throw e, s') → (m ≫= f) s = (Throw e, s').
Proof. intros H. by rewrite bind_run, H. Qed.

Lemma bind_fetch {A B} (q : Query) (v : A) (f : A → M B) (s : Request.t) :
  (fetch q v ≫= f) s =
    f v (Request.mk (Request.validatorLedgerCache s) (Request.queries s ++ [q])
           (Request.completions s)).
Proof. reflexivity. Qed.

(** [array.map(callback)] with a callback that runs in [M]: the calls are
    made in the order of the array.  [Inv] is what the calls preserve of the
    request state, [Post i] what the [i]-th call establishes of its result. *)
Lemma mapM_run {A B} (Inv : Request.t → Prop) (Post : nat → B → Prop)
    (f : A → M B) (l : list A) (s : Request.t) :
  (∀ i x, l !! i = Some x → ∀ s, Inv s →
     ∃ b s', f x s = (Ok b, s') ∧ Inv s' ∧ Post i b) →
  Inv s →
  ∃ k s', mapM f l s = (Ok k, s') ∧ Inv s' ∧ length k = length l ∧
          ∀ i b, k !! i = Some b → Post i b.
Proof.
  revert Post s. induction l as [|x l IH]; intros Post s H Hs.
  - exists [], s. repeat split; [done|]. intros i b. by rewrite lookup_nil.
  - destruct (H 0%nat x eq_refl s Hs) as (b & s1 & Hrun & Hs1 & Hb).
    destruct (IH (λ i, Post (S i)) s1) as (k & s2 & Hrest & Hs2 & Hlen & Hk); [|done|].
    { intros i y Hy. apply (H (S i) y Hy). }
    exists (b :: k), s2. split; [|split; [done|split; [simpl; by rewrite Hlen|]]].
    + change (mapM f (x :: l)) with (b' ← f x; k' ← mapM f l; mret (b' :: k')).
      rewrite (bind_Ok _ _ _ _ _ Hrun). by rewrite (bind_Ok _ _ _ _ _ Hrest).
    + intros [|i] b'; simpl; [by intros [= <-] | apply Hk].
Qed.

Lemma omap_id_Some {A} (l : list A) : omap id (Some <$> l) = l.
Proof. induction l as [|x l IH]; [done|]. simpl. f_equal. exact IH. Qed.

(** Settling promises that resolve: whatever the order, the positions
    settled hold the values of their promises. *)
Lemma settle_run {A} (Inv : Request.t → Prop) (promises : list (M A))
    (values : list A) (order : list nat) (settled : list (option A)) (s : Request.t) :
  Forall2 (λ p v, ∀ s, Inv s → ∃ s', p s = (Ok v, s') ∧ Inv s') promises values →
  length settled = length promises →
  (∀ i a, settled !! i = Some (Some a) → values !! i = Some a) →
  Inv s →
  ∃ settled' s',
    settle order promises settled s = (Ok settled', s') ∧ Inv s' ∧
    length settled' = length promises ∧
    (∀ i a, settled' !! i = Some (Some a) → values !! i = Some a) ∧
    (∀ i, i ∈ order → settled' !! i ≠ Some None) ∧
    (∀ i, settled !! i ≠ Some None → settled' !! i ≠ Some None).
Proof.
  intros Hall. revert settled s.
  induction order as [|i order IH]; intros settled s Hlen Hval Hs.
  { exists settled, s. repeat split; try done. intros i Hi. by apply elem_of_nil in Hi. }
  assert (∀ settled' : list (option A),
            length settled' = length promises →
            (∀ j, settled !! j ≠ Some None → settled' !! j ≠ Some None) →
            (promises !! i = None ∨ settled !! i ≠ Some None) →
            (∀ j, j ∈ order → settled' !! j ≠ Some None) →
            ∀ j, j ∈ i :: order → settled' !! j ≠ Some None) as Hskip.
  { intros settled' Hlen' Hkeep Hi Horder j [->|Hj]%elem_of_cons; [|by apply Horder].
    destruct Hi as [Hi|Hi]; [|by apply Hkeep].
    apply lookup_ge_None in Hi. rewrite <-Hlen' in Hi.
    apply lookup_ge_None in Hi. by rewrite Hi. }
  cbn [settle].
  destruct (promises !! i) as [p|] eqn:Hp.
  2: { destruct (IH settled s Hlen Hval Hs) as (settled' & s' & Hrun & Hs' & Hlen' & Hval' & Ho & Hk).
       exists settled', s'. repeat split; try done. apply Hskip; auto. }
  destruct (settled !! i) as [[a|]|] eqn:Hi.
  1, 3: destruct (IH settled s Hlen Hval Hs)
          as (settled' & s' & Hrun & Hs' & Hlen' & Hval' & Ho & Hk);
        exists settled', s'; repeat split; try done;
        apply Hskip; auto; right; by rewrite Hi.
  destruct (Forall2_lookup_l _ _ _ _ _ Hall Hp) as (v & Hv & Hpv).
  destruct (Hpv s Hs) as (s1 & Hrun1 & Hs1).
  assert (i < length settled)%nat as Hlt by (by eapply lookup_lt_Some).
  destruct (IH (<[i := Some v]> settled) s1) as (settled' & s' & Hrun & Hs' & Hlen' & Hval' & Ho & Hk).
  { by rewrite length_insert. }
  { intros j a. destruct (decide (i = j)) as [<-|Hne].
    - rewrite list_lookup_insert_eq by done. by intros [= <-].
    - rewrite list_lookup_insert_ne by done. apply Hval. }
  { done. }
  exists settled', s'. split; [by rewrite (bind_Ok _ _ _ _ _ Hrun1)|].
  repeat split; try done.
  - intros j [->|Hj]%elem_of_cons; [|by apply Ho].
    apply Hk. by rewrite list_lookup_insert_eq.
  - intros j Hj. apply Hk. destruct (decide (i = j)) as [<-|Hne]; [done|].
    by rewrite list_lookup_insert_ne.
Qed.

(** [Promise.all] resolves to the values of its promises, by position,
    when each of them resolves, whatever the order in which they settle;
    [Inv] is what the promises preserve of the request state. *)
Lemma Promise_all_run {A} (Inv : Request.t → Prop) (promises : list (M A))
    (values : list A) (s : Request.t) :
  Forall2 (λ p v, ∀ s, Inv s → ∃ s', p s = (Ok v, s') ∧ Inv s') promises values →
  Inv (Request.popCompletion s) →
  ∃ s', Promise_all promises s = (Ok values, s') ∧ Inv s'.
Proof.
  intros Hall Hs. unfold Promise_all. rewrite bind_run. unfold nextCompletion at 1.
  destruct (settle_run Inv promises values
              (default [] (head (Request.completions s)) ++ seq 0 (length promises))
              (replicate (length promises) None) (Request.popCompletion s) Hall)
    as (settled & s' & Hrun & Hs' & Hlen & Hval & Horder & _); [..|done|].
  { by rewrite length_replicate. }
  { intros i a [??]%lookup_replicate. done. }
  exists s'. split; [|done]. rewrite (bind_Ok _ _ _ _ _ Hrun).
  assert (settled = Some <$> values) as ->; [|by rewrite omap_id_Some].
  apply list_eq. intros i. rewrite list_lookup_fmap.
  destruct (decide (i < length promises)%nat) as [Hlt|Hge].
  - destruct (lookup_lt_is_Some_2 settled i) as [[a|] Hi]; [by rewrite Hlen|..].
    + by rewrite Hi, (Hval _ _ Hi).
    + destruct (Horder i); [|done]. apply elem_of_app. right. apply elem_of_seq. lia.
  - rewrite (lookup_ge_None_2 settled) by lia.
    rewrite (lookup_ge_None_2 values); [done|].
    pose proof (Forall2_length _ _ _ Hall : length promises = length values). lia.
Qed.

(** Promises with nothing left to run. *)
Lemma Promise_all_mret {A} (values : list A) (s : Request.t) :
  Promise_all (mret <$> values) s = (Ok values, Request.popCompletion s).
Proof.
  destruct (Promise_all_run (λ s', s' = Request.popCompletion s) (mret <$> values) values s)
    as (s' & -> & ->); [|done..].
  apply Forall2_fmap_l, Forall_Forall2_diag, Forall_forall.
  intros v _ s0 ->. by eexists.
Qed.

Lemma Promise_all_mret_fmap {A B} (f : A → B) (l : list A) (s : Request.t) :
  Promise_all ((λ x, mret (f x)) <$> l) s = (Ok (f <$> l), Request.popCompletion s).
Proof. rewrite <-Promise_all_mret. by rewrite <-list_fmap_compose. Qed.

(** [map] over an array with a callback that may throw. *)
Lemma Outcome_mapM_Forall2 {A B} (f : A → Outcome B) (l : list A) (k : list B) :
  Forall2 (λ x y, f x = Ok y) l k → mapM f l = Ok k.
Proof.
  induction 1 as [|x y l k Hxy _ IH]; [done|].
  simpl. rewrite Hxy. simpl. by rewrite IH.
Qed.

Lemma Outcome_mapM_inv {A B} (f : A → Outcome B) (l : list A) (k : list B) :
  mapM f l = Ok k → Forall2 (λ x y, f x = Ok y) l k.
Proof.
  revert k. induction l as [|x l IH]; intros k; simpl.
  - intros [= <-]. constructor.
  - destruct (f x) as [y|] eqn:Hx; simpl; [|done].
    destruct (mapM f l) as [k'|]; simpl; [|done].
    intros [= <-]. constructor; [done | by apply IH].
Qed.

Lemma Outcome_mapM_total {A B} (f : A → Outcome B) (l : list A) :
  Forall (λ x, ∃ y, f x = Ok y) l → ∃ k, mapM f l = Ok k.
Proof.
  induction 1 as [|x l [y Hy] _ [k IH]]; [by eexists|].
  exists (y :: k). simpl. rewrite Hy. simpl. by rewrite IH.
Qed.

(** ** The codec of era indices *)

Lemma createType_EraIndex_Ok (n : Z) :
  0 ≤ n < 2 ^ 32 → createType_EraIndex n = Ok (Z.to_N n).
Proof.
  intros H. unfold createType_EraIndex.
  destruct (Z.ltb_spec n 0); [lia|]. destruct (Z.leb_spec (2 ^ 32) n); [lia|done].
Qed.

Lemma createType_EraIndex_inv (n : Z) (eraIndex : EraIndex) :
  createType_EraIndex n = Ok eraIndex → 0 ≤ n < 2 ^ 32 ∧ eraIndex = Z.to_N n.
Proof.
  unfold createType_EraIndex.
  destruct (Z.ltb_spec n 0); [done|]. destruct (Z.leb_spec (2 ^ 32) n); [done|].
  intros [= <-]. lia.
Qed.

Lemma createType_EraIndex_Throw (n : Z) (e : Error) :
  createType_EraIndex n = Throw e → ¬ (0 ≤ n < 2 ^ 32) ∧ ∃ msg, e = PlainError msg.
Proof.
  unfold createType_EraIndex.
  destruct (Z.ltb_spec n 0); [intros [= <-]; split; [lia | by eexists]|].
  destruct (Z.leb_spec (2 ^ 32) n); [intros [= <-]; split; [lia | by eexists]|done].
Qed.

(** Over a list of numbers the codec accepts all of them, or throws for the
    first one that it refuses. *)
Lemma mapM_createType_EraIndex (eras : list Z) :
  (Forall (λ e, 0 ≤ e < 2 ^ 32) eras ∧
   mapM createType_EraIndex eras = Ok (Z.to_N <$> eras)) ∨
  (¬ Forall (λ e, 0 ≤ e < 2 ^ 32) eras ∧
   ∃ msg, mapM createType_EraIndex eras = Throw (PlainError msg)).
Proof.
  induction eras as [|e eras IH]; [left; by split|].
  destruct (createType_EraIndex e) as [eraIndex|err] eqn:He.
  - apply createType_EraIndex_inv in He as He'. destruct He' as [Hin ->].
    destruct IH as [[Hall Hrun]|[Hnot [msg Hrun]]].
    + left. split; [by constructor|]. simpl. rewrite He. simpl. by rewrite Hrun.
    + right. split; [by intros [_ ?]%Forall_cons|].
      exists msg. simpl. rewrite He. simpl. by rewrite Hrun.
  - apply createType_EraIndex_Throw in He as He'. destruct He' as [Hout [msg ->]].
    right. split; [by intros [? _]%Forall_cons|].
    exists msg. simpl. by rewrite He.
Qed.

(** ** The retention limit *)

Lemma resolveHistoryDepth_run historicApi currentEra s :
  ∃ historyDepth queries,
    resolveHistoryDepth historicApi currentEra s =
      (Ok historyDepth,
       Request.mk (Request.validatorLedgerCache s) (Request.queries s ++ queries)
         (Request.completions s)) ∧
    Forall (λ q, isPreamble q = true) queries ∧
    ∀ s', fst (resolveHistoryDepth historicApi currentEra s') = Ok historyDepth.
Proof.
  unfold resolveHistoryDepth. destruct s as [cache qs cs].
  destruct (HistoricApi.consts_staking_historyDepth historicApi) as [c|].
  { exists c, []. simpl. by rewrite app_nil_r. }
  destruct (HistoricApi.query_staking_historyDepth historicApi) as [v|].
  { exists v, [Q_historyDepth]. simpl. repeat split; by repeat constructor. }
  destruct (currentEra <? 518).
  - exists 0%N, []. simpl. by rewrite app_nil_r.
  - exists 84%N, []. simpl. by rewrite app_nil_r.
Qed.

(** ** Commission and ledger of a validator *)

Lemma cacheCoherent_popCompletion historicApi s :
  cacheCoherent historicApi s → cacheCoherent historicApi (Request.popCompletion s).
Proof. done. Qed.

(** A call of [fetchCommissionAndLedger] returns a promise of what the chain
    holds, whatever the cache holds when the call is made and when the
    promise settles, as long as the cache holds chain data. *)
Lemma fetchCommissionAndLedger_promise_run historicApi validatorId era s :
  cacheCoherent historicApi s →
  ∃ promise s',
    fetchCommissionAndLedger_promise historicApi validatorId era s = (Ok promise, s') ∧
    cacheCoherent historicApi s' ∧
    ∀ s0, cacheCoherent historicApi s0 →
      ∃ s1, promise s0 =
              (Ok (commissionAndLedgerAt historicApi (JS.eraArgument era) validatorId), s1) ∧
            cacheCoherent historicApi s1.
Proof.
  intros Hs. unfold fetchCommissionAndLedger_promise, commissionAndLedgerAt.
  rewrite bind_run. unfold cacheGet at 1.
  destruct (Request.validatorLedgerCache s !! validatorId) as [cached|] eqn:Hcached.
  - rewrite bind_fetch. rewrite (Hs _ _ Hcached).
    eexists _, _. split; [reflexivity|]. split; [exact Hs|].
    intros s0 Hs0. by eexists.
  - rewrite !bind_fetch.
    eexists _, _. split; [reflexivity|]. split; [exact Hs|].
    intros s0 Hs0.
    destruct (HistoricApi.query_staking_bonded historicApi validatorId) as [controller|] eqn:Hb;
      [|by eexists].
    rewrite bind_fetch. cbn [mbind option_bind].
    destruct (HistoricApi.query_staking_ledger historicApi controller) as [l|] eqn:Hl;
      [|by eexists].
    eexists. split; [reflexivity|].
    intros v l'. simpl. destruct (decide (validatorId = v)) as [<-|Hne].
    + rewrite lookup_insert_eq. intros [= <-]. by rewrite Hb.
    + rewrite lookup_insert_ne by done. apply Hs0.
Qed.

Lemma fetchCommissionAndLedger_run historicApi validatorId era s :
  cacheCoherent historicApi s →
  ∃ s', fetchCommissionAndLedger historicApi validatorId era s =
          (Ok (commissionAndLedgerAt historicApi (JS.eraArgument era) validatorId), s') ∧
        cacheCoherent historicApi s'.
Proof.
  intros Hs. unfold fetchCommissionAndLedger.
  destruct (fetchCommissionAndLedger_promise_run historicApi validatorId era s Hs)
    as (promise & s1 & Hcall & Hs1 & Hpromise).
  rewrite (bind_Ok _ _ _ _ _ Hcall). by apply Hpromise.
Qed.

(** ** General data of the eras *)

Lemma fetchAllErasGeneral_loop_modern api historicApi erasRewardPoints eras block acc s :
  HistoricApi.query_staking_erasRewardPoints historicApi = Some erasRewardPoints →
  ∃ s',
    fetchAllErasGeneral_loop api historicApi eras block acc s =
      ((λ eraIndexes,
          acc ++ ((λ eraIndex, mret (erasGeneralAt historicApi erasRewardPoints eraIndex))
                    <$> eraIndexes))
         <$> mapM createType_EraIndex eras, s').
Proof.
  intros Hrp. revert acc s. induction eras as [|e rest IH]; intros acc s.
  - exists s. simpl. by rewrite app_nil_r.
  - cbn [fetchAllErasGeneral_loop]. rewrite Hrp. rewrite bind_run. unfold liftOutcome at 1.
    change (mapM createType_EraIndex (e :: rest))
      with (eraIndex ← createType_EraIndex e;
            eraIndexes ← mapM createType_EraIndex rest; Ok (eraIndex :: eraIndexes)).
    destruct (createType_EraIndex e) as [eraIndex|err]; [|by eexists].
    unfold deriveEraExposure. rewrite bind_run, bind_fetch. cbn [mret M_ret].
    rewrite !bind_fetch.
    edestruct IH as [s' ->]. exists s'.
    cbn [mbind Outcome_bind].
    destruct (mapM createType_EraIndex rest) as [eraIndexes|]; [|done].
    cbn [fmap Outcome_fmap]. by rewrite <-app_assoc.
Qed.

Lemma fetchAllErasGeneral_loop_requests api historicApi erasRewardPoints eras block acc s :
  HistoricApi.query_staking_erasRewardPoints historicApi = Some erasRewardPoints →
  Forall (λ e, 0 ≤ e < 2 ^ 32) eras →
  fetchAllErasGeneral_loop api historicApi eras block acc s =
    (Ok (acc ++ ((λ e, mret (erasGeneralAt historicApi erasRewardPoints (Z.to_N e)))
                   <$> eras)),
     Request.mk (Request.validatorLedgerCache s)
       (Request.queries s ++ erasGeneralQueries eras) (Request.completions s)).
Proof.
  intros Hrp Hall. revert acc s. induction Hall as [|e rest He _ IH]; intros acc s.
  - simpl. rewrite !app_nil_r. by destruct s.
  - cbn [fetchAllErasGeneral_loop]. rewrite Hrp. rewrite bind_run. unfold liftOutcome at 1.
    rewrite (createType_EraIndex_Ok e He).
    unfold deriveEraExposure. rewrite bind_run, bind_fetch. cbn [mret M_ret].
    rewrite !bind_fetch. rewrite IH. cbn [Request.validatorLedgerCache Request.queries
                                          Request.completions].
    rewrite fmap_cons. unfold erasGeneralQueries. rewrite bind_cons.
    by rewrite <-!app_assoc.
Qed.

Lemma fetchAllErasGeneral_modern api historicApi erasRewardPoints startEra era blockNumber s :
  HistoricApi.query_staking_erasRewardPoints historicApi = Some erasRewardPoints →
  ∃ s',
    fetchAllErasGeneral api historicApi startEra era blockNumber s =
      (fmap (erasGeneralAt historicApi erasRewardPoints)
         <$> mapM createType_EraIndex (seqZ startEra (era - startEra + 1)), s').
Proof.
  intros Hrp. unfold fetchAllErasGeneral. cbv zeta. rewrite bind_run.
  edestruct (fetchAllErasGeneral_loop_modern api historicApi erasRewardPoints) as [s1 ->];
    [done|].
  destruct (mapM createType_EraIndex _) as [eraIndexes|]; [|by eexists].
  cbn [fmap Outcome_fmap]. rewrite app_nil_l.
  rewrite Promise_all_mret_fmap. by eexists.
Qed.

Lemma fetchAllErasGeneral_loop_legacy api historicApi eras block acc s :
  HistoricApi.query_staking_erasRewardPoints historicApi = None →
  let eraDurationInBlocks :=
    Z.of_N (HistoricApi.consts_staking_sessionsPerEra historicApi) *
    Z.of_N (HistoricApi.consts_babe_epochDuration historicApi) in
  fetchAllErasGeneral_loop api historicApi eras block acc s =
    (Ok (acc ++ ((λ points, mret (PointsTuple points))
                   <$> historicPoints api eraDurationInBlocks eras block)),
     Request.mk (Request.validatorLedgerCache s)
       (Request.queries s ++ historicQueries api eraDurationInBlocks eras block)
       (Request.completions s)).
Proof.
  intros Hrp d. revert block acc s. induction eras as [|e rest IH]; intros block acc s.
  - simpl. rewrite !app_nil_r. by destruct s.
  - cbn [fetchAllErasGeneral_loop]. rewrite Hrp. cbv zeta.
    unfold fetchHistoricRewardPoints_promise.
    rewrite bind_run, bind_fetch. cbn [mret M_ret]. rewrite !bind_fetch.
    rewrite IH. cbn [Request.validatorLedgerCache Request.queries Request.completions
                     historicPoints historicQueries].
    rewrite fmap_cons. by rewrite <-!app_assoc.
Qed.

Lemma historicPoints_length api d eras block :
  length (historicPoints api d eras block) = length eras.
Proof. revert block. induction eras as [|e rest IH]; intros block; simpl; [done|]. by rewrite IH. Qed.

Lemma fetchAllErasGeneral_legacy api historicApi startEra era blockNumber s :
  HistoricApi.query_staking_erasRewardPoints historicApi = None →
  ∃ points s',
    fetchAllErasGeneral api historicApi startEra era blockNumber s =
      (Ok (PointsTuple <$> points), s') ∧
    length points = length (seqZ startEra (era - startEra + 1)).
Proof.
  intros Hrp. unfold fetchAllErasGeneral. cbv zeta. rewrite bind_run.
  rewrite (fetchAllErasGeneral_loop_legacy api historicApi _ _ _ _ Hrp). cbv zeta.
  rewrite app_nil_l, Promise_all_mret_fmap.
  eexists _, _. split; [reflexivity|]. apply historicPoints_length.
Qed.

(** ** Commissions of the eras *)

Lemma fetchAllErasCommissions_modern historicApi address startEra
    (exposures : list DeriveEraExposure.t) s :
  ∃ s',
    fetchAllErasCommissions historicApi address startEra (inl <$> exposures) s =
      (Ok (imap (λ idx d,
                   commissionsAt historicApi address
                     (JS.eraArgument (Z.of_nat idx + startEra)) d) exposures),
       s') ∧
    cacheCoherent historicApi s'.
Proof.
  unfold fetchAllErasCommissions. rewrite bind_run. unfold newCache at 1.
  set (s0 := Request.mk ∅ (Request.queries s) (Request.completions s)).
  assert (cacheCoherent historicApi s0) as Hs0.
  { intros v l. simpl. by rewrite lookup_empty. }
  match goal with |- context [mapM id ?calls] =>
    destruct (mapM_run (cacheCoherent historicApi)
                (λ idx promise, ∃ d, exposures !! idx = Some d ∧
                   ∀ s, cacheCoherent historicApi s →
                     ∃ s', promise s =
                             (Ok (commissionsAt historicApi address
                                    (JS.eraArgument (Z.of_nat idx + startEra)) d), s') ∧
                           cacheCoherent historicApi s') id calls s0)
      as (promises & s1 & Hcalls & Hs1 & Hlen & Hpromises); [|exact Hs0|] end.
  { intros idx call. rewrite list_lookup_imap, list_lookup_fmap.
    destruct (exposures !! idx) as [d|]; simpl; [|done].
    intros [= <-] s2 Hs2. rewrite bind_run. unfold liftOutcome at 1.
    unfold commissionsAt.
    destruct (deriveNominatedExposures address d) as [l|] eqn:Hd.
    2: { eexists _, s2. split; [reflexivity|]. split; [exact Hs2|].
         exists d. split; [done|]. rewrite Hd. intros s3 Hs3.
         exists s3. split; [reflexivity | exact Hs3]. }
    edestruct (mapM_run (cacheCoherent historicApi)
                 (λ i promise, ∃ n, l !! i = Some n ∧
                    ∀ s, cacheCoherent historicApi s →
                      ∃ s', promise s =
                              (Ok (commissionAndLedgerAt historicApi
                                     (JS.eraArgument (Z.of_nat idx + startEra))
                                     (DeriveEraExposureNominating.validatorId n)), s') ∧
                            cacheCoherent historicApi s')
                 (λ n, fetchCommissionAndLedger_promise historicApi
                         (DeriveEraExposureNominating.validatorId n)
                         (Z.of_nat idx + startEra)) l s2)
      as (single & s3 & Hsingle & Hs3 & Hlen3 & Hsingle_promises); [|exact Hs2|].
    { intros i n Hn s4 Hs4.
      destruct (fetchCommissionAndLedger_promise_run historicApi
                  (DeriveEraExposureNominating.validatorId n) (Z.of_nat idx + startEra) s4 Hs4)
        as (promise & s5 & Hrun & Hs5 & Hpromise).
      exists promise, s5. split; [done|]. split; [done|]. by exists n. }
    rewrite (bind_Ok _ _ _ _ _ Hsingle).
    eexists _, s3. split; [reflexivity|]. split; [exact Hs3|].
    exists d. split; [done|]. rewrite Hd. intros s4 Hs4.
    apply Promise_all_run; [|by apply cacheCoherent_popCompletion].
    apply Forall2_same_length_lookup_2; [by rewrite length_fmap|].
    intros i promise v Hpromise. rewrite list_lookup_fmap.
    destruct (Hsingle_promises i promise Hpromise) as (n & -> & Hn).
    intros [= <-]. exact Hn. }
  rewrite (bind_Ok _ _ _ _ _ Hcalls).
  apply Promise_all_run; [|by apply cacheCoherent_popCompletion].
  apply Forall2_same_length_lookup_2.
  { by rewrite Hlen, !length_imap, length_fmap. }
  intros idx promise v Hpromise. rewrite list_lookup_imap.
  destruct (Hpromises idx promise Hpromise) as (d & -> & Hd).
  intros [= <-]. exact Hd.
Qed.

Lemma fetchAllErasCommissions_legacy historicApi address startEra points rest s :
  ∃ s',
    fetchAllErasCommissions historicApi address startEra (inr points :: rest) s =
      (Throw (readOfUndefined address), s').
Proof. eexists. reflexivity. Qed.

(** ** Assembling the data of an era *)

Lemma eraDataOf_modern historicApi erasRewardPoints address startEra
    allErasCommissions idx eraIndex :
  0 ≤ Z.of_nat idx + startEra < 2 ^ 32 →
  eraIndex = Z.to_N (Z.of_nat idx + startEra) →
  allErasCommissions !! idx =
    Some (commissionsAt historicApi address eraIndex
            (mapStakers eraIndex
               (HistoricApi.query_staking_erasStakersClipped_entries historicApi eraIndex))) →
  eraDataOf address startEra allErasCommissions idx
    (erasGeneralAt historicApi erasRewardPoints eraIndex) =
  Ok (eraDataAt historicApi erasRewardPoints address eraIndex).
Proof.
  intros Hin Hidx Hcomm. unfold eraDataOf, erasGeneralAt, eraDataAt, commissionsAt in *.
  rewrite Hcomm, (createType_EraIndex_Ok _ Hin), <-Hidx.
  destruct (deriveNominatedExposures address _) as [l|]; [|done].
  erewrite Outcome_mapM_Forall2; [reflexivity|].
  apply Forall2_same_length_lookup_2.
  { by rewrite length_imap, length_map. }
  intros i x y. rewrite list_lookup_imap, !list_lookup_fmap.
  destruct (l !! i) as [n|]; simpl; [|done]. by intros [= <-] [= <-].
Qed.

Lemma range_checks_pass depth era currentEra historyDepth :
  ¬ rangeRefused depth era currentEra historyDepth →
  negb (Z.of_N historyDepth =? 0) && (depth >? Z.of_N historyDepth) = false ∧
  (era - (depth - 1) <? currentEra - Z.of_N historyDepth)
    && negb (Z.of_N historyDepth =? 0) = false.
Proof.
  unfold rangeRefused. intros H.
  destruct (Z.eqb_spec (Z.of_N historyDepth) 0) as [->|Hnz]; simpl.
  - by rewrite andb_false_r.
  - rewrite andb_true_r. split.
    + rewrite Z.gtb_ltb. apply Z.ltb_ge. lia.
    + apply Z.ltb_ge. lia.
Qed.

Lemma range_checks_fail depth era currentEra historyDepth :
  rangeRefused depth era currentEra historyDepth →
  negb (Z.of_N historyDepth =? 0) && (depth >? Z.of_N historyDepth) = true ∨
  (era - (depth - 1) <? currentEra - Z.of_N historyDepth)
    && negb (Z.of_N historyDepth =? 0) = true.
Proof.
  unfold rangeRefused. intros [Hnz [H|H]].
  - left. apply andb_true_iff. split.
    + by apply negb_true_iff, Z.eqb_neq.
    + rewrite Z.gtb_ltb. apply Z.ltb_lt. lia.
  - right. apply andb_true_iff. split.
    + by apply Z.ltb_lt.
    + by apply negb_true_iff, Z.eqb_neq.
Qed.

Lemma rangeRefused_dec depth era currentEra historyDepth :
  rangeRefused depth era currentEra historyDepth ∨
  ¬ rangeRefused depth era currentEra historyDepth.
Proof. unfold rangeRefused. lia. Qed.

(** The data assembled for an era lists only validators of its graph, so
    deriving the payouts of the era does not throw. *)
Lemma eraDataAt_inGraph historicApi erasRewardPoints address eraIndex exposuresWithCommission :
  IEraData.exposuresWithCommission
    (eraDataAt historicApi erasRewardPoints address eraIndex) = Some exposuresWithCommission →
  Forall (λ x, is_Some (DeriveEraExposure.validators
                          (IEraData.deriveEraExposure
                             (eraDataAt historicApi erasRewardPoints address eraIndex))
                          !! ExposureWithCommission.validatorId x))
    exposuresWithCommission.
Proof.
  unfold eraDataAt. cbn [IEraData.exposuresWithCommission IEraData.deriveEraExposure].
  destruct (deriveNominatedExposures address
              (mapStakers eraIndex
                 (HistoricApi.query_staking_erasStakersClipped_entries historicApi eraIndex)))
    as [l|] eqn:Hl; [|done].
  intros [= <-]. apply Forall_fmap.
  by apply (deriveNominatedExposures_inGraph address).
Qed.

Lemma eraDataAt_no_throw calc_payout historicApi erasRewardPoints address unclaimedOnly eraIndex :
  ∃ result,
    deriveEraPayouts calc_payout address unclaimedOnly
      (eraDataAt historicApi erasRewardPoints address eraIndex) = Ok result.
Proof. apply deriveEraPayouts_no_throw. apply eraDataAt_inGraph. Qed.

(** The result derived for an era carries the index of that era: it is the
    payout breakdown of the era or the message that the era has no
    [ErasValidatorReward]. *)
Lemma eraDataAt_result_era calc_payout historicApi erasRewardPoints address unclaimedOnly
    eraIndex result :
  deriveEraPayouts calc_payout address unclaimedOnly
    (eraDataAt historicApi erasRewardPoints address eraIndex) = Ok result →
  match result with
  | EraPayouts era totalEraRewardPoints totalEraPayout _ =>
      era = eraIndex ∧
      totalEraRewardPoints = PalletStakingEraRewardPoints.total (erasRewardPoints eraIndex) ∧
      HistoricApi.query_staking_erasValidatorReward historicApi eraIndex = Some totalEraPayout
  | Message message =>
      message = "No ErasValidatorReward for the era " +:+ pretty eraIndex ∧
      HistoricApi.query_staking_erasValidatorReward historicApi eraIndex = None
  end.
Proof.
  unfold deriveEraPayouts, eraDataAt.
  cbn [IEraData.exposuresWithCommission IEraData.erasValidatorRewardOption
       IEraData.eraIndex IEraData.eraRewardPoints].
  destruct (deriveNominatedExposures_Some address
              (mapStakers eraIndex
                 (HistoricApi.query_staking_erasStakersClipped_entries historicApi eraIndex)))
    as [l ->].
  cbn [fmap option_fmap option_map].
  destruct (HistoricApi.query_staking_erasValidatorReward historicApi eraIndex) as [reward|].
  - destruct (payoutsLoop _ _ _ _ _ _ _ _) as [ps|]; simpl; [|done].
    by intros [= <-].
  - by intros [= <-].
Qed.

(** ** The entry point, case by case *)

Lemma Outcome_mapM_fmap {A B C} (f : B → Outcome C) (g : A → B) (l : list A) :
  mapM f (g <$> l) = mapM (f ∘ g) l.
Proof.
  induction l as [|x l IH]; [done|]. rewrite fmap_cons.
  change (mapM f (g x :: (g <$> l))) with (y ← f (g x); k ← mapM f (g <$> l); mret (y :: k)).
  by rewrite IH.
Qed.

Lemma erasPayoutsAt_inv calc_payout historicApi erasRewardPoints address unclaimedOnly
    eras erasPayouts :
  erasPayoutsAt calc_payout historicApi erasRewardPoints address unclaimedOnly eras
    = Ok erasPayouts →
  Forall (λ e, 0 ≤ e < 2 ^ 32) eras ∧
  Forall2
    (λ e result,
       deriveEraPayouts calc_payout address unclaimedOnly
         (eraDataAt historicApi erasRewardPoints address (Z.to_N e)) = Ok result)
    eras erasPayouts.
Proof.
  unfold erasPayoutsAt.
  destruct (mapM_createType_EraIndex eras) as [[Hall ->]|[_ [msg ->]]]; [|done].
  cbn [mbind Outcome_bind]. rewrite Outcome_mapM_fmap.
  intros H%Outcome_mapM_inv. done.
Qed.

Lemma erasPayoutsAt_total calc_payout historicApi erasRewardPoints address unclaimedOnly eras :
  Forall (λ e, 0 ≤ e < 2 ^ 32) eras →
  ∃ erasPayouts,
    erasPayoutsAt calc_payout historicApi erasRewardPoints address unclaimedOnly eras
      = Ok erasPayouts.
Proof.
  intros Hall. unfold erasPayoutsAt.
  destruct (mapM_createType_EraIndex eras) as [[_ ->]|[Hnot _]]; [|done].
  cbn [mbind Outcome_bind]. apply Outcome_mapM_total, Forall_forall.
  intros eraIndex _. apply eraDataAt_no_throw.
Qed.

Lemma erasPayoutsAt_Throw calc_payout historicApi erasRewardPoints address unclaimedOnly
    eras e :
  erasPayoutsAt calc_payout historicApi erasRewardPoints address unclaimedOnly eras
    = Throw e →
  ¬ Forall (λ e, 0 ≤ e < 2 ^ 32) eras ∧ ∃ msg, e = PlainError msg.
Proof.
  intros H.
  destruct (decide (Forall (λ e, 0 ≤ e < 2 ^ 32) eras)) as [Hall|Hnot].
  { destruct (erasPayoutsAt_total calc_payout historicApi erasRewardPoints address
                unclaimedOnly eras Hall) as [ps Hps]. congruence. }
  split; [done|]. unfold erasPayoutsAt in H.
  destruct (mapM_createType_EraIndex eras) as [[Hall _]|[_ [msg Hmsg]]]; [done|].
  rewrite Hmsg in H. injection H as <-. by eexists.
Qed.

(** The eras of a request are numbers that the codec accepts when the last
    of them is. *)
Lemma eras_accepted (depth era : Z) :
  era < 2 ^ 32 →
  Forall (λ e, 0 ≤ e < 2 ^ 32)
    (seqZ (JS.Math_max 0 (era - (depth - 1)))
       (era - JS.Math_max 0 (era - (depth - 1)) + 1)).
Proof.
  intros Hera. apply Forall_forall. intros e He%elem_of_seqZ.
  unfold JS.Math_max in *. lia.
Qed.

Section EntryPoint.

Variable calc_payout :
  RewardPoint → Balance → RewardPoint → Perbill → Balance → Balance → bool → string.
Variables (api : Api.t) (hash : BlockHash) (address : string) (depth era : Z).
Variables (unclaimedOnly : bool) (currentEra : Z) (historicApi : HistoricApi.t).

Local Abbreviation run :=
  (fetchAccountStakingPayout calc_payout api hash address depth era unclaimedOnly
     currentEra historicApi).
Local Abbreviation startEra := (JS.Math_max 0 (era - (depth - 1))).
Local Abbreviation eras := (seqZ startEra (era - startEra + 1)).
Local Abbreviation at_ := (At.mk (Api.rpc_chain_getHeader_number api hash) hash).

(** A refused range: the request fails after the two preamble requests. *)
Lemma run_refused s historyDepth :
  fst (resolveHistoryDepth historicApi currentEra s) = Ok historyDepth →
  rangeRefused depth era currentEra historyDepth →
  ∃ msg queries,
    run s = (Throw (BadRequest msg),
             Request.mk (Request.validatorLedgerCache s) (Request.queries s ++ queries)
               (Request.completions s)) ∧
    Forall (λ q, isPreamble q = true) queries ∧
    msg = if negb (Z.of_N historyDepth =? 0) && (depth >? Z.of_N historyDepth)
          then depthMessage else eraMessage.
Proof.
  intros Hhd Hrefused. unfold fetchAccountStakingPayout. rewrite bind_fetch.
  destruct (resolveHistoryDepth_run historicApi currentEra
              (Request.mk (Request.validatorLedgerCache s)
                 (Request.queries s ++ [Q_getHeader hash]) (Request.completions s)))
    as (hd & qs & Hrun & Hqs & Hval).
  rewrite (Hval s) in Hhd. injection Hhd as ->.
  rewrite (bind_Ok _ _ _ _ _ Hrun). cbv zeta. simpl in *.
  destruct (range_checks_fail _ _ _ _ Hrefused) as [H|H].
  - rewrite H. exists depthMessage, (Q_getHeader hash :: qs).
    unfold throw. rewrite <-app_assoc. split; [done|]. split; [by constructor|done].
  - rewrite H. destruct (negb _ && (depth >? _)).
    + exists depthMessage, (Q_getHeader hash :: qs).
      unfold throw. rewrite <-app_assoc. split; [done|]. split; [by constructor|done].
    + exists eraMessage, (Q_getHeader hash :: qs).
      unfold throw. rewrite <-app_assoc. split; [done|]. split; [by constructor|done].
Qed.

(** An accepted range on a runtime with [erasRewardPoints]: the request
    answers what the chain holds for the eras of the range, whatever the
    request state it starts from. *)
Lemma run_modern s historyDepth erasRewardPoints :
  HistoricApi.query_staking_erasRewardPoints historicApi = Some erasRewardPoints →
  fst (resolveHistoryDepth historicApi currentEra s) = Ok historyDepth →
  ¬ rangeRefused depth era currentEra historyDepth →
  ∃ s',
    run s =
      (IAccountStakingPayouts.mk at_
         <$> erasPayoutsAt calc_payout historicApi erasRewardPoints address unclaimedOnly eras,
       s').
Proof.
  intros Hrp Hhd Haccepted. unfold fetchAccountStakingPayout. rewrite bind_fetch.
  destruct (resolveHistoryDepth_run historicApi currentEra
              (Request.mk (Request.validatorLedgerCache s)
                 (Request.queries s ++ [Q_getHeader hash]) (Request.completions s)))
    as (hd & qs & Hrun & _ & Hval).
  rewrite (Hval s) in Hhd. injection Hhd as ->.
  rewrite (bind_Ok _ _ _ _ _ Hrun). cbv zeta.
  destruct (range_checks_pass _ _ _ _ Haccepted) as [-> ->].
  cbn [At.height andb]. rewrite bind_run.
  match goal with |- context [fetchAllErasGeneral _ _ _ _ ?n ?s2] =>
    destruct (fetchAllErasGeneral_modern api historicApi erasRewardPoints startEra era n s2 Hrp)
      as [s3 ->] end.
  unfold erasPayoutsAt.
  destruct (mapM createType_EraIndex eras) as [eraIndexes|err] eqn:Hindexes;
    [|by eexists].
  cbn [fmap Outcome_fmap mbind Outcome_bind].
  apply Outcome_mapM_inv in Hindexes.
  set (exposures :=
         (λ eraIndex, mapStakers eraIndex
                 (HistoricApi.query_staking_erasStakersClipped_entries historicApi
                    eraIndex)) <$> eraIndexes).
  assert (map ErasGeneral_0
            (erasGeneralAt historicApi erasRewardPoints <$> eraIndexes)
          = inl <$> exposures) as ->.
  { unfold exposures. rewrite <-!list_fmap_compose. done. }
  rewrite bind_run.
  match goal with |- context [fetchAllErasCommissions _ _ _ _ ?s3] =>
    destruct (fetchAllErasCommissions_modern historicApi address startEra exposures s3)
      as (s4 & Hcommissions & _) end.
  rewrite Hcommissions.
  rewrite bind_run. unfold liftOutcome at 1.
  erewrite (Outcome_mapM_Forall2 id _
              (eraDataAt historicApi erasRewardPoints address <$> eraIndexes)).
  2: { apply Forall2_same_length_lookup_2.
       { by rewrite length_imap, !length_fmap. }
       intros i x y. rewrite list_lookup_imap, !list_lookup_fmap.
       destruct (eraIndexes !! i) as [eraIndex|] eqn:Hi; simpl; [|done].
       intros [= <-] [= <-].
       destruct (Forall2_lookup_r _ _ _ _ _ Hindexes Hi) as (e & He & Hcreate).
       apply createType_EraIndex_inv in Hcreate as [Hin ->].
       apply lookup_seqZ in He as [-> Hlt].
       apply eraDataOf_modern.
       - lia.
       - f_equal. lia.
       - rewrite list_lookup_imap. unfold exposures. rewrite list_lookup_fmap, Hi.
         simpl. unfold JS.eraArgument. do 3 f_equal. lia. }
  rewrite bind_run. unfold liftOutcome at 1.
  rewrite Outcome_mapM_fmap.
  destruct (mapM _ eraIndexes) as [erasPayouts|err]; by eexists.
Qed.

Lemma run_modern_Ok s historyDepth erasRewardPoints :
  HistoricApi.query_staking_erasRewardPoints historicApi = Some erasRewardPoints →
  fst (resolveHistoryDepth historicApi currentEra s) = Ok historyDepth →
  ¬ rangeRefused depth era currentEra historyDepth →
  era < 2 ^ 32 →
  ∃ erasPayouts s',
    run s = (Ok (IAccountStakingPayouts.mk at_ erasPayouts), s') ∧
    Forall2
      (λ e result,
         deriveEraPayouts calc_payout address unclaimedOnly
           (eraDataAt historicApi erasRewardPoints address (Z.to_N e))
         = Ok result)
      eras erasPayouts.
Proof.
  intros Hrp Hhd Haccepted Hera.
  destruct (run_modern s historyDepth erasRewardPoints Hrp Hhd Haccepted) as [s' Hrun].
  destruct (erasPayoutsAt_total calc_payout historicApi erasRewardPoints address
              unclaimedOnly eras (eras_accepted depth era Hera)) as [erasPayouts Hpayouts].
  exists erasPayouts, s'. rewrite Hrun, Hpayouts. split; [done|].
  by apply erasPayoutsAt_inv in Hpayouts as [_ ?].
Qed.

(** An accepted range on a runtime without [erasRewardPoints]: the elements
    of [allErasGeneral] are [[points]] tuples and the first read of
    [nominators] throws, unless the range is empty. *)
Lemma run_legacy s historyDepth :
  HistoricApi.query_staking_erasRewardPoints historicApi = None →
  fst (resolveHistoryDepth historicApi currentEra s) = Ok historyDepth →
  ¬ rangeRefused depth era currentEra historyDepth →
  ∃ s',
    run s = (match eras with
             | [] => Ok (IAccountStakingPayouts.mk at_ [])
             | _ :: _ => Throw (readOfUndefined address)
             end, s').
Proof.
  intros Hrp Hhd Haccepted. unfold fetchAccountStakingPayout. rewrite bind_fetch.
  destruct (resolveHistoryDepth_run historicApi currentEra
              (Request.mk (Request.validatorLedgerCache s)
                 (Request.queries s ++ [Q_getHeader hash]) (Request.completions s)))
    as (hd & qs & Hrun & _ & Hval).
  rewrite (Hval s) in Hhd. injection Hhd as ->.
  rewrite (bind_Ok _ _ _ _ _ Hrun). cbv zeta.
  destruct (range_checks_pass _ _ _ _ Haccepted) as [-> ->].
  cbn [At.height andb]. rewrite bind_run.
  match goal with |- context [fetchAllErasGeneral _ _ _ _ ?n ?s2] =>
    destruct (fetchAllErasGeneral_legacy api historicApi startEra era n s2 Hrp)
      as (points & s3 & -> & Hlen) end.
  destruct points as [|p points]; destruct eras as [|e rest]; try done.
  - destruct (fetchAllErasCommissions_modern historicApi address startEra [] s3)
      as (s4 & Hcommissions & _).
    cbn [fmap list_fmap map imap] in *.
    rewrite (bind_Ok _ _ _ _ _ Hcommissions). by eexists.
  - rewrite fmap_cons. cbn [map ErasGeneral_0].
    edestruct fetchAllErasCommissions_legacy as [s' Hcommissions].
    rewrite (bind_Throw _ _ _ _ _ Hcommissions). by eexists.
Qed.

(** Past the range checks no [BadRequest] is thrown. *)
Lemma run_accepted s historyDepth :
  fst (resolveHistoryDepth historicApi currentEra s) = Ok historyDepth →
  ¬ rangeRefused depth era currentEra historyDepth →
  ∀ msg, fst (run s) ≠ Throw (BadRequest msg).
Proof.
  intros Hhd Haccepted msg.
  destruct (HistoricApi.query_staking_erasRewardPoints historicApi) as [rp|] eqn:Hrp.
  - destruct (run_modern s historyDepth rp Hrp Hhd Haccepted) as (s' & ->). simpl.
    destruct (erasPayoutsAt _ _ _ _ _ _) as [ps|e] eqn:He; [done|].
    apply erasPayoutsAt_Throw in He as [_ [msg' ->]]. done.
  - destruct (run_legacy s historyDepth Hrp Hhd Haccepted) as (s' & ->).
    simpl. by destruct eras.
Qed.

(** Whatever the request answers, it answers for the eras of the range. *)
Lemma run_Ok s r :
  fst (run s) = Ok r →
  IAccountStakingPayouts.at_ r = at_ ∧
  length (IAccountStakingPayouts.erasPayouts r) = length eras ∧
  ∀ i result,
    IAccountStakingPayouts.erasPayouts r !! i = Some result →
    ∃ erasRewardPoints,
      HistoricApi.query_staking_erasRewardPoints historicApi = Some erasRewardPoints ∧
      deriveEraPayouts calc_payout address unclaimedOnly
        (eraDataAt historicApi erasRewardPoints address
           (Z.to_N (startEra + Z.of_nat i))) = Ok result.
Proof.
  intros Hr.
  destruct (resolveHistoryDepth_run historicApi currentEra s) as (hd & _ & _ & _ & Hval).
  specialize (Hval s).
  destruct (rangeRefused_dec depth era currentEra hd) as [Hrefused|Haccepted].
  { destruct (run_refused s hd Hval Hrefused) as (msg & qs & Hrun & _).
    rewrite Hrun in Hr. done. }
  destruct (HistoricApi.query_staking_erasRewardPoints historicApi) as [rp|] eqn:Hrp.
  - destruct (run_modern s hd rp Hrp Hval Haccepted) as (s' & Hrun).
    rewrite Hrun in Hr. simpl in Hr.
    destruct (erasPayoutsAt _ _ _ _ _ _) as [ps|] eqn:Hps; [|done].
    injection Hr as <-. simpl. apply erasPayoutsAt_inv in Hps as [_ Hall].
    split; [done|]. split; [symmetry; by eapply Forall2_length|].
    intros i result Hi. exists rp. split; [done|].
    destruct (Forall2_lookup_r _ _ _ _ _ Hall Hi) as (e & He & Hresult).
    apply lookup_seqZ in He as [-> _]. done.
  - destruct (run_legacy s hd Hrp Hval Haccepted) as (s' & Hrun).
    rewrite Hrun in Hr. simpl in Hr. destruct eras; [|done].
    injection Hr as <-. simpl. split; [done|]. split; [done|].
    intros i result Hi. by rewrite lookup_nil in Hi.
Qed.

(** What the request answers, a value or an exception, is the same from
    every request state: it does not depend on the cache that the request
    finds nor on the order in which its promises settle. *)
Lemma run_state_independent s s' : fst (run s) = fst (run s').
Proof.
  destruct (resolveHistoryDepth_run historicApi currentEra s) as (hd & _ & _ & _ & Hval).
  destruct (rangeRefused_dec depth era currentEra hd) as [Hrefused|Haccepted].
  { destruct (run_refused s hd (Hval s) Hrefused) as (msg & qs & -> & _ & ->).
    destruct (run_refused s' hd (Hval s') Hrefused) as (msg' & qs' & -> & _ & ->).
    done. }
  destruct (HistoricApi.query_staking_erasRewardPoints historicApi) as [rp|] eqn:Hrp.
  - destruct (run_modern s hd rp Hrp (Hval s) Haccepted) as (s1 & ->).
    destruct (run_modern s' hd rp Hrp (Hval s') Haccepted) as (s1' & ->). done.
  - destruct (run_legacy s hd Hrp (Hval s) Haccepted) as (s1 & ->).
    destruct (run_legacy s' hd Hrp (Hval s') Haccepted) as (s1' & ->). done.
Qed.

End EntryPoint.

(** * The claims *)

(** C1 (the code departs from the claim).  For a ledger of the oldest layout
    the value of [lastReward] is stored in [indexOfEra] and only compared with
    [-1]: the claimed flag is true for every requested era as soon as the
    scalar is set, not only for the era the scalar names.  On the example
    chain the ledger of [V] has [lastReward = 5], and the payout of [A] behind
    [V] for era 100 is flagged as claimed. *)
Theorem C1_lastReward_claimed_for_every_era :
  (∀ lastReward eraIndex : EraIndex,
     claimedOf <$> resolveIndexOfEra
                     (StakingLedger.mk None None (Some (Some lastReward))) eraIndex
     = Some true) ∧
  claimedOf <$> resolveIndexOfEra Example.ledgerV 7%N = Some true ∧
  deriveEraPayouts Example.calc_payout "A" false
    (eraDataAt Example.historicApi Example.rewardPoints "A" 100%N) =
    Ok (EraPayouts 100%N 1000%N 1000000%N
          [IPayout.mk "V" "90000" true 500%N 100000000%N 1000%N 200%N;
           IPayout.mk "W" "56250" true 250%N 100000000%N 400%N 100%N]).
Proof.
  split; [|split].
  - intros e E. simpl. by rewrite claimedOf_of_N.
  - reflexivity.
  - vm_compute. reflexivity.
Qed.

(** C2 (the code departs from the claim).  [deriveNominatedExposures] starts
    from [nominators[address] ?? []] and so never returns [undefined]; the
    test [!exposuresWithCommission] of [deriveEraPayouts] is never true and
    the message that the address has no nominations is never produced.  On
    the example chain [B] backs no validator in era 50: the list of its
    nominated exposures is empty and the result for the era is a payout
    breakdown with no payouts. *)
Theorem C2_no_nominations_gives_empty_breakdown :
  (∀ address deriveEraExposure,
     deriveNominatedExposures address deriveEraExposure ≠ None) ∧
  ("B" ∉ stakerId <$> Example.stakers 50%N) ∧
  Forall (λ entry, "B" ∉ othersWho entry) (Example.stakers 50%N) ∧
  deriveNominatedExposures "B" (mapStakers 50%N (Example.stakers 50%N)) = Some [] ∧
  fst (fetchAccountStakingPayout Example.calc_payout Example.api "0xb10c" "B" 1 50 false 100
         Example.historicApi Request.init) =
    Ok (IAccountStakingPayouts.mk (At.mk 1234%N "0xb10c")
          [EraPayouts 50%N 1000%N 1000000%N []]).
Proof.
  split; [done|].
  split; [by_decide|]. split; [by_decide|]. split; vm_compute; reflexivity.
Qed.

(** C3.  Claim resolution goes by the shape of the ledger record, a
    claimed-era set before the scalar.  The code probes the set of the
    current ledger type first (the field [legacyClaimedRewards]), then the set
    of the former type [StakingLedger] (the field [claimedRewards]), and
    consults the scalar [lastReward] only when neither set is present; when a
    set is present the membership of the era in it alone gives the flag,
    whatever the scalar.  A ledger record is of one shape, and on a record
    that does not show both sets the order in which the two sets are probed
    is immaterial: the flag is also the one obtained by probing
    [claimedRewards] first. *)
Theorem C3_claim_resolution_order (validatorLedger : StakingLedger.t) (eraIndex : EraIndex) :
  let flag := claimedOf <$> resolveIndexOfEra validatorLedger eraIndex in
  let scalarOnly :=
    claimedOf <$> resolveIndexOfEra
      (StakingLedger.mk None None (StakingLedger.lastReward validatorLedger)) eraIndex in
  flag =
    match StakingLedger.legacyClaimedRewards validatorLedger with
    | Some legacyClaimedRewards => Some (bool_decide (eraIndex ∈ legacyClaimedRewards))
    | None =>
        match StakingLedger.claimedRewards validatorLedger with
        | Some claimedRewards => Some (bool_decide (eraIndex ∈ claimedRewards))
        | None => scalarOnly
        end
    end ∧
  (¬ (is_Some (StakingLedger.legacyClaimedRewards validatorLedger) ∧
      is_Some (StakingLedger.claimedRewards validatorLedger)) →
   flag =
     match StakingLedger.claimedRewards validatorLedger with
     | Some claimedRewards => Some (bool_decide (eraIndex ∈ claimedRewards))
     | None =>
         match StakingLedger.legacyClaimedRewards validatorLedger with
         | Some legacyClaimedRewards => Some (bool_decide (eraIndex ∈ legacyClaimedRewards))
         | None => scalarOnly
         end
     end).
Proof.
  destruct validatorLedger as [[l|] [c|] r]; simpl; rewrite ?claimedOf_indexOf;
    (split; [done|]); try done.
  intros []. split; by eexists.
Qed.

(** A witness of [C3_claim_resolution_order]: a record with the set
    [claimedRewards = [5]] and the scalar [lastReward = 9]; era 5 is claimed
    and era 9 is not: the set decides, the scalar is not consulted. *)
Lemma C3_claim_resolution_order_witness :
  claimedOf <$> resolveIndexOfEra Example.setAndScalar 5%N = Some true ∧
  claimedOf <$> resolveIndexOfEra Example.setAndScalar 9%N = Some false.
Proof.
  split.
  - destruct (C3_claim_resolution_order Example.setAndScalar 5%N) as [_ H].
    rewrite H; by_decide.
  - destruct (C3_claim_resolution_order Example.setAndScalar 9%N) as [_ H].
    rewrite H; by_decide.
Defined.

(** C4, the claim as stated fails: when the [others] of a validator names
    the validator itself, [deriveNominatedExposures] lists the address twice,
    once for the explicit nomination and once for the appended
    self-nomination. *)
Lemma C4_counterexample :
  let deriveEraExposure := mapStakers 1%N Example.selfNominated in
  is_Some (DeriveEraExposure.validators deriveEraExposure !! "V") ∧
  validatorIds <$> deriveNominatedExposures "V" deriveEraExposure = Some ["V"; "V"] ∧
  ¬ NoDup ["V"; "V"] ∧
  length (filter (λ validatorId, validatorId = "V") ["V"; "V"]) = 2%nat.
Proof.
  split; [by eexists|]. split; [by vm_compute|]. split; [|reflexivity].
  intros [Hnot _]%NoDup_cons. apply Hnot. left.
Qed.

(** C4 (amended).  On the graph derived from raw entries with distinct
    validator keys, in which no [others] list names a nominator twice and no
    validator is named in its own [others]: the list derived for an address
    has no duplicate validator identity, and when the address is an active
    validator of the era it contains the address exactly once, also when the
    address is named in the [others] of other validators. *)
Theorem C4_self_nomination_once (address : string) (era : EraIndex)
    (stakers : KeysAndExposures) :
  NoDup (stakerId <$> stakers) →
  Forall (λ entry, NoDup (othersWho entry)) stakers →
  Forall (λ entry, stakerId entry = address → address ∉ othersWho entry) stakers →
  ∃ l, deriveNominatedExposures address (mapStakers era stakers) = Some l ∧
       NoDup (validatorIds l) ∧
       (is_Some (DeriveEraExposure.validators (mapStakers era stakers) !! address) →
        length (filter (λ validatorId, validatorId = address) (validatorIds l)) = 1%nat).
Proof.
  intros Hkeys Hothers Hself.
  destruct (deriveNominatedExposures_ids address era stakers) as (l & Hl & Hids).
  exists l. split; [done|]. rewrite Hids, (explicitNominations_filter _ _ Hothers).
  set (explicit := stakerId <$> filter (λ entry, address ∈ othersWho entry) stakers).
  assert (NoDup explicit) as Hnd.
  { eapply sublist_NoDup; [exact Hkeys|]. apply fmap_sublist, sublist_filter. }
  assert (address ∉ explicit) as Hnot.
  { intros (entry & Heq & [Hin Hentry]%list_elem_of_filter)%list_elem_of_fmap.
    rewrite Forall_forall in Hself. by apply (Hself entry Hentry). }
  split.
  - case_decide; [|by rewrite app_nil_r].
    apply NoDup_app. split; [done|]. split; [|apply NoDup_singleton].
    intros x Hx ->%list_elem_of_singleton. done.
  - intros Hv%mapStakers_validators. rewrite decide_True by done.
    rewrite filter_app, filter_cons_True, filter_nil by done.
    rewrite length_app. simpl.
    replace (filter (λ validatorId, validatorId = address) explicit) with (@nil AccountId);
      [done|].
    symmetry. clear Hnd. induction explicit as [|x xs IH]; [done|].
    rewrite filter_cons_False; [apply IH; intros H; apply Hnot; by right|].
    intros ->. apply Hnot. left.
Qed.

(** A witness of [C4_self_nomination_once]: on the example chain [V] is a
    validator and is named in the [others] of [W]. *)
Lemma C4_self_nomination_once_witness :
  (∃ l, deriveNominatedExposures "V" (mapStakers 100%N (Example.stakers 100%N)) = Some l ∧
        NoDup (validatorIds l) ∧
        (is_Some (DeriveEraExposure.validators
                    (mapStakers 100%N (Example.stakers 100%N)) !! "V") →
         length (filter (λ validatorId, validatorId = "V") (validatorIds l)) = 1%nat)).
Proof.
  apply (C4_self_nomination_once "V" 100%N (Example.stakers 100%N));
    by_decide.
Defined.

(** C5.  With a retention limit [historyDepth] that is not 0, the request
    fails with [BadRequest] exactly when [depth > historyDepth] or
    [era - (depth - 1) < currentEra - historyDepth]; when it so fails, the only
    requests sent to the node are the header of the block and the retention
    limit, no data of an era.  With [historyDepth = 0] no [BadRequest] is
    raised. *)
Theorem C5_invalid_range
    (calc_payout : RewardPoint → Balance → RewardPoint → Perbill → Balance → Balance → bool → string)
    (api : Api.t) (hash : BlockHash) (address : string) (depth era : Z)
    (unclaimedOnly : bool) (currentEra : Z) (historicApi : HistoricApi.t)
    (s : Request.t) (historyDepth : N) :
  fst (resolveHistoryDepth historicApi currentEra s) = Ok historyDepth →
  let result :=
    fetchAccountStakingPayout calc_payout api hash address depth era unclaimedOnly
      currentEra historicApi s in
  (historyDepth ≠ 0%N →
   ((∃ msg, fst result = Throw (BadRequest msg)) ↔
    depth > Z.of_N historyDepth ∨
    era - (depth - 1) < currentEra - Z.of_N historyDepth)) ∧
  ((∃ msg, fst result = Throw (BadRequest msg)) →
   ∃ queries, Request.queries (snd result) = Request.queries s ++ queries ∧
              Forall (λ q, isPreamble q = true) queries) ∧
  (historyDepth = 0%N → ∀ msg, fst result ≠ Throw (BadRequest msg)).
Proof.
  intros Hhd result. subst result.
  assert ((∃ msg, fst (fetchAccountStakingPayout calc_payout api hash address depth era
                         unclaimedOnly currentEra historicApi s) = Throw (BadRequest msg)) →
          rangeRefused depth era currentEra historyDepth) as Hrefused.
  { intros [msg Hmsg].
    destruct (rangeRefused_dec depth era currentEra historyDepth) as [?|Haccepted]; [done|].
    by destruct (run_accepted calc_payout api hash address depth era unclaimedOnly
                   currentEra historicApi s historyDepth Hhd Haccepted msg). }
  split; [|split].
  - intros Hnz. split.
    + intros [_ H]%Hrefused. exact H.
    + intros H.
      destruct (run_refused calc_payout api hash address depth era unclaimedOnly
                  currentEra historicApi s historyDepth Hhd) as (msg & qs & -> & _).
      { split; [lia | exact H]. }
      by exists msg.
  - intros H%Hrefused.
    destruct (run_refused calc_payout api hash address depth era unclaimedOnly
                currentEra historicApi s historyDepth Hhd H) as (msg & qs & -> & Hqs & _).
    by exists qs.
  - intros -> msg. eapply run_accepted; [exact Hhd|].
    unfold rangeRefused. simpl. lia.
Qed.

(** A witness of [C5_invalid_range]: on the example chain the retention limit
    is 84, and a depth of 85 is refused. *)
Lemma C5_invalid_range_witness :
  ∃ msg,
    fst (fetchAccountStakingPayout Example.calc_payout Example.api "0xb10c" "A" 85 100 false
           100 Example.historicApi Request.init) = Throw (BadRequest msg).
Proof.
  destruct (C5_invalid_range Example.calc_payout Example.api "0xb10c" "A" 85 100 false 100
              Example.historicApi Request.init 84%N) as (H & _ & _).
  - reflexivity.
  - apply H; [done | lia].
Defined.

(** C6.  In every payouts list that [deriveEraPayouts] emits, each entry is
    for a validator with reward points that are present and not zero, behind
    which the exposure of the account is defined, and which comes with a
    ledger record showing one of the three known layouts.  An element of
    [exposuresWithCommission] that fails one of these is passed over by the
    loop ([continue]), and as long as the listed validators are in the
    exposure graph of the era no exception is raised; they are in the graph
    for the data that the entry point assembles for an era. *)
Theorem C6_skipped_validators_have_no_payout
    (calc_payout : RewardPoint → Balance → RewardPoint → Perbill → Balance → Balance → bool → string)
    (address : string) (unclaimedOnly : bool) (eraData : IEraData.t) :
  let inGraph x :=
    is_Some (DeriveEraExposure.validators (IEraData.deriveEraExposure eraData)
               !! ExposureWithCommission.validatorId x) in
  (∀ era totalEraRewardPoints totalEraPayout payouts,
     deriveEraPayouts calc_payout address unclaimedOnly eraData =
       Ok (EraPayouts era totalEraRewardPoints totalEraPayout payouts) →
     ∀ p, p ∈ payouts →
       (∃ points,
          extractTotalValidatorRewardPoints (IEraData.eraRewardPoints eraData)
            (IPayout.validatorId p) = Some points ∧ points ≠ 0%N) ∧
       (∃ totalExposure nominatorExposure,
          extractExposure address (IPayout.validatorId p)
            (IEraData.deriveEraExposure eraData) =
            Ok (totalExposure, Some nominatorExposure)) ∧
       (∃ exposuresWithCommission x validatorLedger,
          IEraData.exposuresWithCommission eraData = Some exposuresWithCommission ∧
          x ∈ exposuresWithCommission ∧
          ExposureWithCommission.validatorId x = IPayout.validatorId p ∧
          ExposureWithCommission.validatorLedger x = Some validatorLedger ∧
          hasKnownShape validatorLedger)) ∧
  (∀ totalEraRewardPoints totalEraPayout x,
     let validatorId := ExposureWithCommission.validatorId x in
     let points :=
       extractTotalValidatorRewardPoints (IEraData.eraRewardPoints eraData) validatorId in
     points = None ∨ points = Some 0%N ∨
     (inGraph x ∧
      ((∃ totalExposure,
          extractExposure address validatorId (IEraData.deriveEraExposure eraData) =
            Ok (totalExposure, None)) ∨
       ExposureWithCommission.validatorLedger x = None ∨
       (∃ validatorLedger,
          ExposureWithCommission.validatorLedger x = Some validatorLedger ∧
          ¬ hasKnownShape validatorLedger))) →
     payoutOf calc_payout address unclaimedOnly eraData totalEraRewardPoints
       totalEraPayout x = Ok None) ∧
  (∀ exposuresWithCommission,
     IEraData.exposuresWithCommission eraData = Some exposuresWithCommission →
     Forall inGraph exposuresWithCommission →
     ∃ result, deriveEraPayouts calc_payout address unclaimedOnly eraData = Ok result) ∧
  (∀ historicApi erasRewardPoints eraIndex,
     eraData = eraDataAt historicApi erasRewardPoints address eraIndex →
     ∃ result, deriveEraPayouts calc_payout address unclaimedOnly eraData = Ok result).
Proof.
  intros inGraph. split; [|split; [|split]].
  - intros era tp tpay payouts (ewc & Hewc & _ & _ & _ & Hloop)%deriveEraPayouts_inv p Hp.
    destruct (payoutsLoop_elem _ _ _ _ _ _ _ _ _ Hloop p Hp)
      as [Hnil|(x & Hx & Hpx)]; [by apply elem_of_nil in Hnil|].
    apply payoutOf_Some in Hpx
      as (Hid & Hpts & Hnz & Hexp & ledger & i & Hledger & _ & Hres & _).
    split; [eauto|]. split; [eauto|].
    exists ewc, x, ledger. repeat split; try done.
    by eapply resolveIndexOfEra_shape.
  - intros tp tpay x. apply payoutOf_skip.
  - intros ewc Hewc Hcov. apply deriveEraPayouts_no_throw.
    intros ewc' Hewc'. assert (ewc' = ewc) as -> by congruence. exact Hcov.
  - intros historicApi erasRewardPoints eraIndex ->. apply eraDataAt_no_throw.
Qed.

(** A witness of [C6_skipped_validators_have_no_payout]: the data of era 100
    for [A] on the example chain lists validators of the graph only, and its
    payouts are derived without exception. *)
Lemma C6_skipped_validators_have_no_payout_witness :
  ∃ result,
    deriveEraPayouts Example.calc_payout "A" false
      (eraDataAt Example.historicApi Example.rewardPoints "A" 100%N) = Ok result.
Proof.
  destruct (C6_skipped_validators_have_no_payout Example.calc_payout "A" false
              (eraDataAt Example.historicApi Example.rewardPoints "A" 100%N))
    as (_ & _ & Hno_throw & _).
  eapply Hno_throw; [reflexivity|]. by_decide.
Defined.

(** C7, the claim as stated fails: the range checks run before the start of
    the range is computed, and they refuse requests whose
    [era - (depth - 1)] is negative like any other.  With [era = 10] and
    [depth = 20] at current era 100, on the example chain whose retention
    limit is 84, the request fails with [BadRequest]. *)
Lemma C7_counterexample :
  10 - (20 - 1) < 0 ∧
  fst (resolveHistoryDepth Example.historicApi 100 Request.init) = Ok 84%N ∧
  fst (fetchAccountStakingPayout Example.calc_payout Example.api "0xb10c" "A" 20 10
         false 100 Example.historicApi Request.init) = Throw (BadRequest eraMessage).
Proof. split; [lia|]. split; vm_compute; reflexivity. Qed.

(** C7 (amended).  The eras a request answers for start at
    [max(0, era - (depth - 1))]: every answer has one result per era from
    there to [era], the first being the result of that era.  A request that
    the range checks accept does not fail with [BadRequest]; when its
    [era - (depth - 1)] is negative the start is 0, and on a runtime with
    [erasRewardPoints], [era] being a number that an [EraIndex] holds, it is
    answered with one result per era from 0 to [era]. *)
Theorem C7_startEra_clamped
    (calc_payout : RewardPoint → Balance → RewardPoint → Perbill → Balance → Balance → bool → string)
    (api : Api.t) (hash : BlockHash) (address : string) (depth era : Z)
    (unclaimedOnly : bool) (currentEra : Z) (historicApi : HistoricApi.t)
    (s : Request.t) :
  let startEra := Z.max 0 (era - (depth - 1)) in
  let result :=
    fst (fetchAccountStakingPayout calc_payout api hash address depth era unclaimedOnly
           currentEra historicApi s) in
  (∀ r, result = Ok r →
     length (IAccountStakingPayouts.erasPayouts r) = Z.to_nat (era - startEra + 1) ∧
     ∀ first, head (IAccountStakingPayouts.erasPayouts r) = Some first →
       ∃ erasRewardPoints,
         HistoricApi.query_staking_erasRewardPoints historicApi = Some erasRewardPoints ∧
         deriveEraPayouts calc_payout address unclaimedOnly
           (eraDataAt historicApi erasRewardPoints address (Z.to_N startEra)) = Ok first) ∧
  (∀ historyDepth,
     fst (resolveHistoryDepth historicApi currentEra s) = Ok historyDepth →
     historyDepth = 0%N ∨
     (depth ≤ Z.of_N historyDepth ∧ currentEra - Z.of_N historyDepth ≤ era - (depth - 1)) →
     (∀ msg, result ≠ Throw (BadRequest msg)) ∧
     (era - (depth - 1) < 0 →
      startEra = 0 ∧
      ∀ erasRewardPoints,
        HistoricApi.query_staking_erasRewardPoints historicApi = Some erasRewardPoints →
        era < 2 ^ 32 →
        ∃ r, result = Ok r ∧
             length (IAccountStakingPayouts.erasPayouts r) = Z.to_nat (era + 1))).
Proof.
  intros startEra result. subst result. split.
  - intros r (_ & Hlen & Hi)%run_Ok. rewrite length_seqZ in Hlen. split; [exact Hlen|].
    intros first Hfirst. rewrite head_lookup in Hfirst.
    destruct (Hi 0%nat first Hfirst) as (rp & Hrp & Hresult). exists rp. split; [done|].
    unfold JS.Math_max in Hresult. by rewrite Z.add_0_r in Hresult.
  - intros hd Hhd Hpass.
    assert (¬ rangeRefused depth era currentEra hd) as Haccepted
      by (unfold rangeRefused; lia).
    split; [by eapply run_accepted|].
    intros Hneg. assert (startEra = 0) as Hstart by (unfold startEra; lia).
    split; [exact Hstart|]. intros rp Hrp Hera.
    destruct (run_modern_Ok calc_payout api hash address depth era unclaimedOnly currentEra
                historicApi s hd rp Hrp Hhd Haccepted Hera) as (ps & s' & Hrun & Hall).
    rewrite Hrun. eexists. split; [reflexivity|]. simpl.
    apply Forall2_length in Hall. rewrite length_seqZ in Hall.
    rewrite <-Hall. unfold JS.Math_max. fold startEra. rewrite Hstart. f_equal. lia.
Qed.

(** A witness of [C7_startEra_clamped]: the request of the specification,
    [era = 10] and [depth = 20], at current era 10 with a retention limit of
    84, is answered with the eleven eras 0 to 10. *)
Lemma C7_startEra_clamped_witness :
  Z.max 0 (10 - (20 - 1)) = 0 ∧
  ∃ r, fst (fetchAccountStakingPayout Example.calc_payout Example.api "0xb10c" "A" 20 10
              false 10 Example.historicApi Request.init) = Ok r ∧
       length (IAccountStakingPayouts.erasPayouts r) = 11%nat.
Proof.
  destruct (C7_startEra_clamped Example.calc_payout Example.api "0xb10c" "A" 20 10 false 10
              Example.historicApi Request.init) as [_ H].
  destruct (H 84%N) as [_ Hclamp]; [reflexivity | lia |].
  destruct Hclamp as [Hstart Hrun]; [lia|]. split; [exact Hstart|].
  apply (Hrun Example.rewardPoints); [reflexivity | lia].
Defined.

(** C8.  With [unclaimedOnly] set, every result that is a payout breakdown
    carries the index of the era, the total of its reward points and its
    validator reward, and no entry of its payouts has the claimed flag set.
    It is the result computed without the flag with the claimed entries
    removed from [payouts], which is the empty list when every entry was
    claimed.  And it is a breakdown, not a message nor an error, whenever the
    era has a validator reward and nominated exposures whose validators are
    in the exposure graph of the era, however many entries are removed. *)
Theorem C8_unclaimedOnly_filters_claimed
    (calc_payout : RewardPoint → Balance → RewardPoint → Perbill → Balance → Balance → bool → string)
    (address : string) (eraData : IEraData.t) :
  (∀ era totalEraRewardPoints totalEraPayout payouts,
     deriveEraPayouts calc_payout address true eraData =
       Ok (EraPayouts era totalEraRewardPoints totalEraPayout payouts) →
     era = IEraData.eraIndex eraData ∧
     totalEraRewardPoints =
       PalletStakingEraRewardPoints.total (IEraData.eraRewardPoints eraData) ∧
     IEraData.erasValidatorRewardOption eraData = Some totalEraPayout ∧
     Forall (λ p, IPayout.claimed p = false) payouts) ∧
  (∀ era totalEraRewardPoints totalEraPayout payouts,
     deriveEraPayouts calc_payout address false eraData =
       Ok (EraPayouts era totalEraRewardPoints totalEraPayout payouts) →
     deriveEraPayouts calc_payout address true eraData =
       Ok (EraPayouts era totalEraRewardPoints totalEraPayout
             (filter (λ p, IPayout.claimed p = false) payouts)) ∧
     (Forall (λ p, IPayout.claimed p = true) payouts →
      deriveEraPayouts calc_payout address true eraData =
        Ok (EraPayouts era totalEraRewardPoints totalEraPayout []))) ∧
  (∀ exposuresWithCommission totalEraPayout,
     IEraData.exposuresWithCommission eraData = Some exposuresWithCommission →
     IEraData.erasValidatorRewardOption eraData = Some totalEraPayout →
     Forall (λ x, is_Some (DeriveEraExposure.validators (IEraData.deriveEraExposure eraData)
                             !! ExposureWithCommission.validatorId x))
       exposuresWithCommission →
     ∃ payouts,
       deriveEraPayouts calc_payout address false eraData =
         Ok (EraPayouts (IEraData.eraIndex eraData)
               (PalletStakingEraRewardPoints.total (IEraData.eraRewardPoints eraData))
               totalEraPayout payouts) ∧
       deriveEraPayouts calc_payout address true eraData =
         Ok (EraPayouts (IEraData.eraIndex eraData)
               (PalletStakingEraRewardPoints.total (IEraData.eraRewardPoints eraData))
               totalEraPayout (filter (λ p, IPayout.claimed p = false) payouts))).
Proof.
  assert (∀ era tp tpay payouts,
            deriveEraPayouts calc_payout address false eraData =
              Ok (EraPayouts era tp tpay payouts) →
            deriveEraPayouts calc_payout address true eraData =
              Ok (EraPayouts era tp tpay (filter (λ p, IPayout.claimed p = false) payouts)))
    as Hfilter.
  { intros era tp tpay payouts H.
    apply deriveEraPayouts_inv in H as (ewc & Hewc & Hreward & -> & -> & Hloop).
    apply payoutsLoop_unclaimedOnly in Hloop. rewrite filter_nil in Hloop.
    unfold deriveEraPayouts. by rewrite Hewc, Hreward, Hloop. }
  split; [|split].
  - intros era tp tpay payouts (ewc & _ & Hreward & -> & -> & Hloop)%deriveEraPayouts_inv.
    split; [done|]. split; [done|]. split; [done|].
    apply Forall_forall. intros p Hp.
    destruct (payoutsLoop_elem _ _ _ _ _ _ _ _ _ Hloop p Hp)
      as [Hnil|(x & _ & Hpx)]; [by apply elem_of_nil in Hnil|].
    apply payoutOf_Some in Hpx as (_ & _ & _ & _ & _ & _ & _ & _ & _ & _ & Hu).
    by apply Hu.
  - intros era tp tpay payouts H. split; [by apply Hfilter|].
    intros Hall. rewrite (Hfilter _ _ _ _ H). do 2 f_equal.
    clear H. induction Hall as [|p ps Hp _ IH]; [done|].
    rewrite filter_cons_False; [exact IH | by rewrite Hp].
  - intros ewc tpay Hewc Hreward Hgraph.
    destruct (payoutsLoop_no_throw calc_payout address eraData
                (PalletStakingEraRewardPoints.total (IEraData.eraRewardPoints eraData))
                tpay false ewc [] Hgraph) as [payouts Hloop].
    assert (deriveEraPayouts calc_payout address false eraData =
              Ok (EraPayouts (IEraData.eraIndex eraData)
                    (PalletStakingEraRewardPoints.total (IEraData.eraRewardPoints eraData))
                    tpay payouts)) as H.
    { unfold deriveEraPayouts. by rewrite Hewc, Hreward, Hloop. }
    exists payouts. split; [exact H | by apply Hfilter].
Qed.

(** A witness of [C8_unclaimedOnly_filters_claimed]: both payouts of [A] for
    era 100 are flagged as claimed; with [unclaimedOnly] the era keeps its
    index and totals and has no payouts. *)
Lemma C8_unclaimedOnly_filters_claimed_witness :
  deriveEraPayouts Example.calc_payout "A" true
    (eraDataAt Example.historicApi Example.rewardPoints "A" 100%N) =
    Ok (EraPayouts 100%N 1000%N 1000000%N []).
Proof.
  destruct (C8_unclaimedOnly_filters_claimed Example.calc_payout "A"
              (eraDataAt Example.historicApi Example.rewardPoints "A" 100%N))
    as (_ & Hfilter & _).
  destruct (Hfilter 100%N 1000%N 1000000%N
              [IPayout.mk "V" "90000" true 500%N 100000000%N 1000%N 200%N;
               IPayout.mk "W" "56250" true 250%N 100000000%N 400%N 100%N])
    as [_ Hempty]; [vm_compute; reflexivity|].
  apply Hempty. by repeat constructor.
Defined.

(** C9.  The [erasPayouts] of an answer has one entry per era of the range
    from [startEra = max(0, era - (depth - 1))] to [era], and its [i]-th entry
    is the result derived for era [startEra + i] on its own data: a payout
    breakdown carrying that era index, or the message that the era has no
    [ErasValidatorReward]; the era indices of the breakdowns do not decrease
    along the list.  What the request answers is the same from every request
    state, that is whatever the order in which the promises of its
    [Promise.all] calls settle and whatever the ledger cache holds.  On a
    runtime with [erasRewardPoints] every request that the range checks
    accept, with [era] a number that an [EraIndex] holds, is so answered. *)
Theorem C9_results_in_era_order
    (calc_payout : RewardPoint → Balance → RewardPoint → Perbill → Balance → Balance → bool → string)
    (api : Api.t) (hash : BlockHash) (address : string) (depth era : Z)
    (unclaimedOnly : bool) (currentEra : Z) (historicApi : HistoricApi.t)
    (s : Request.t) :
  let startEra := Z.max 0 (era - (depth - 1)) in
  let result :=
    fst (fetchAccountStakingPayout calc_payout api hash address depth era unclaimedOnly
           currentEra historicApi s) in
  (∀ r, result = Ok r →
     length (IAccountStakingPayouts.erasPayouts r) = Z.to_nat (era - startEra + 1) ∧
     (∀ (i : nat) entry,
        IAccountStakingPayouts.erasPayouts r !! i = Some entry →
        (∃ erasRewardPoints,
           HistoricApi.query_staking_erasRewardPoints historicApi = Some erasRewardPoints ∧
           deriveEraPayouts calc_payout address unclaimedOnly
             (eraDataAt historicApi erasRewardPoints address (Z.to_N (startEra + Z.of_nat i)))
           = Ok entry) ∧
        match entry with
        | EraPayouts entryEra _ _ _ => Z.of_N entryEra = startEra + Z.of_nat i
        | Message message =>
            message = "No ErasValidatorReward for the era "
                        +:+ pretty (Z.to_N (startEra + Z.of_nat i))
        end) ∧
     (∀ (i j : nat) era_i points_i payout_i payouts_i era_j points_j payout_j payouts_j,
        IAccountStakingPayouts.erasPayouts r !! i =
          Some (EraPayouts era_i points_i payout_i payouts_i) →
        IAccountStakingPayouts.erasPayouts r !! j =
          Some (EraPayouts era_j points_j payout_j payouts_j) →
        (i ≤ j)%nat → (era_i ≤ era_j)%N)) ∧
  (∀ completions cache queries,
     fst (fetchAccountStakingPayout calc_payout api hash address depth era unclaimedOnly
            currentEra historicApi (Request.mk cache queries completions)) = result) ∧
  (∀ historyDepth erasRewardPoints,
     fst (resolveHistoryDepth historicApi currentEra s) = Ok historyDepth →
     HistoricApi.query_staking_erasRewardPoints historicApi = Some erasRewardPoints →
     historyDepth = 0%N ∨
     (depth ≤ Z.of_N historyDepth ∧ currentEra - Z.of_N historyDepth ≤ era - (depth - 1)) →
     era < 2 ^ 32 →
     ∃ r, result = Ok r).
Proof.
  intros startEra result. subst result.
  assert (∀ r, fst (fetchAccountStakingPayout calc_payout api hash address depth era
                      unclaimedOnly currentEra historicApi s) = Ok r →
            ∀ (i : nat) entry,
              IAccountStakingPayouts.erasPayouts r !! i = Some entry →
              (∃ erasRewardPoints,
                 HistoricApi.query_staking_erasRewardPoints historicApi = Some erasRewardPoints ∧
                 deriveEraPayouts calc_payout address unclaimedOnly
                   (eraDataAt historicApi erasRewardPoints address
                      (Z.to_N (startEra + Z.of_nat i))) = Ok entry) ∧
              match entry with
              | EraPayouts entryEra _ _ _ => Z.of_N entryEra = startEra + Z.of_nat i
              | Message message =>
                  message = "No ErasValidatorReward for the era "
                              +:+ pretty (Z.to_N (startEra + Z.of_nat i))
              end) as Hentries.
  { intros r (_ & _ & Hi)%run_Ok i entry Hentry.
    destruct (Hi i entry Hentry) as (rp & Hrp & Hresult).
    split; [by exists rp|].
    apply eraDataAt_result_era in Hresult.
    unfold JS.Math_max in Hresult. fold startEra in Hresult.
    destruct entry as [message|entryEra tp tpay ps].
    + by destruct Hresult as [-> _].
    + destruct Hresult as (-> & _). rewrite Z2N.id; [done | unfold startEra; lia]. }
  split; [|split].
  - intros r Hr. split; [|split].
    + apply run_Ok in Hr as (_ & Hlen & _). by rewrite length_seqZ in Hlen.
    + by apply Hentries.
    + intros i j era_i points_i payout_i payouts_i era_j points_j payout_j payouts_j Hi Hj Hij.
      destruct (Hentries r Hr i _ Hi) as [_ Hera_i].
      destruct (Hentries r Hr j _ Hj) as [_ Hera_j]. lia.
  - intros completions cache queries. apply run_state_independent.
  - intros hd rp Hhd Hrp Hpass Hera.
    destruct (run_modern_Ok calc_payout api hash address depth era unclaimedOnly currentEra
                historicApi s hd rp Hrp Hhd) as (ps & s' & Hrun & _); [|done|].
    { unfold rangeRefused. lia. }
    rewrite Hrun. by eexists.
Qed.

(** A witness of [C9_results_in_era_order]: two eras asked on the example
    chain, two results, for the eras 99 and 100 in that order. *)
Lemma C9_results_in_era_order_witness :
  ∃ r, fst (fetchAccountStakingPayout Example.calc_payout Example.api "0xb10c" "A" 2 100
              false 100 Example.historicApi Request.init) = Ok r ∧
       length (IAccountStakingPayouts.erasPayouts r) = 2%nat.
Proof.
  destruct (C9_results_in_era_order Example.calc_payout Example.api "0xb10c" "A" 2 100
              false 100 Example.historicApi Request.init) as (Hshape & _ & Htotal).
  destruct (Htotal 84%N Example.rewardPoints) as [r Hr];
    [reflexivity | reflexivity | lia | lia |].
  exists r. split; [exact Hr|]. by destruct (Hshape r Hr) as [-> _].
Defined.

(** C10.  The retention limit is the [historyDepth] constant when the runtime
    has it, else the [historyDepth] storage item when the runtime has it,
    else 0 when [currentEra < 518] and 84 otherwise; with the default 0 no
    request is refused for its range. *)
Theorem C10_history_depth_resolution (historicApi : HistoricApi.t) (currentEra : Z)
    (s : Request.t) :
  fst (resolveHistoryDepth historicApi currentEra s) =
    Ok (match HistoricApi.consts_staking_historyDepth historicApi with
        | Some constant => constant
        | None =>
            match HistoricApi.query_staking_historyDepth historicApi with
            | Some stored => stored
            | None => if decide (currentEra < 518) then 0%N else 84%N
            end
        end) ∧
  (HistoricApi.consts_staking_historyDepth historicApi = None →
   HistoricApi.query_staking_historyDepth historicApi = None →
   currentEra < 518 →
   ∀ calc_payout api hash address depth era unclaimedOnly s' msg,
     fst (fetchAccountStakingPayout calc_payout api hash address depth era unclaimedOnly
            currentEra historicApi s') ≠ Throw (BadRequest msg)).
Proof.
  assert (∀ s, fst (resolveHistoryDepth historicApi currentEra s) =
    Ok (match HistoricApi.consts_staking_historyDepth historicApi with
        | Some constant => constant
        | None =>
            match HistoricApi.query_staking_historyDepth historicApi with
            | Some stored => stored
            | None => if decide (currentEra < 518) then 0%N else 84%N
            end
        end)) as Hvalue.
  { intros s0. unfold resolveHistoryDepth.
    destruct (HistoricApi.consts_staking_historyDepth historicApi); [done|].
    destruct (HistoricApi.query_staking_historyDepth historicApi); [done|].
    destruct (Z.ltb_spec currentEra 518); case_decide; done || lia. }
  split; [apply Hvalue|].
  intros Hc Hq Hera calc_payout api hash address depth era unclaimedOnly s' msg.
  eapply run_accepted.
  - rewrite Hvalue, Hc, Hq. rewrite decide_True by done. reflexivity.
  - unfold rangeRefused. simpl. lia.
Qed.

(** A witness of [C10_history_depth_resolution]: a runtime with neither the
    constant nor the storage item, at era 100, accepts a depth of 1000. *)
Lemma C10_history_depth_resolution_witness :
  fst (resolveHistoryDepth Example.oldApi 100 Request.init) = Ok 0%N ∧
  fst (fetchAccountStakingPayout Example.calc_payout Example.api "0xb10c" "A" 1000 50 false
         100 Example.oldApi Request.init) ≠ Throw (BadRequest depthMessage).
Proof.
  destruct (C10_history_depth_resolution Example.oldApi 100 Request.init) as [Hvalue Hfree].
  split; [exact Hvalue|].
  apply Hfree; [reflexivity | reflexivity | lia].
Defined.

(** * Further properties of the service *)

(** ** The graph built by [mapStakers] *)

Lemma forEachStaker_validators_last stakers nominators validators validatorId :
  (forEachStaker stakers nominators validators).2 !! validatorId =
    match last (filter (λ entry, stakerId entry = validatorId) stakers) with
    | Some entry => Some entry.2
    | None => validators !! validatorId
    end.
Proof.
  revert nominators validators.
  induction stakers as [|[key exposure] rest IH]; intros n vs; [done|].
  cbn [forEachStaker]. cbv zeta. rewrite IH.
  destruct (decide (stakerId (key, exposure) = validatorId)) as [Heq|Hne].
  - rewrite (filter_cons_True (λ entry, stakerId entry = validatorId)) by done.
    rewrite last_cons.
    destruct (last _); [done|]. unfold stakerId in Heq. simpl in Heq.
    by rewrite Heq, lookup_insert_eq.
  - rewrite (filter_cons_False (λ entry, stakerId entry = validatorId)) by done.
    destruct (last _); [done|]. by rewrite lookup_insert_ne.
Qed.

Lemma last_filter_unique (stakers : KeysAndExposures) entry :
  NoDup (stakerId <$> stakers) → entry ∈ stakers →
  last (filter (λ e, stakerId e = stakerId entry) stakers) = Some entry.
Proof.
  induction stakers as [|x rest IH]; [intros _ H; by apply elem_of_nil in H|].
  rewrite fmap_cons. intros [Hx Hnd]%NoDup_cons [->|Hin]%elem_of_cons.
  - rewrite (filter_cons_True (λ e, stakerId e = stakerId x)) by done.
    rewrite last_cons.
    destruct (last _) as [y|] eqn:Hy; [|done].
    apply last_Some_elem_of, list_elem_of_filter in Hy as [Hy Hyin].
    destruct Hx. rewrite <-Hy. by apply list_elem_of_fmap_2.
  - rewrite (filter_cons_False (λ e, stakerId e = stakerId entry)); [by apply IH|].
    intros Heq. apply Hx. rewrite Heq. by apply list_elem_of_fmap_2.
Qed.

Lemma forEachOther_elem validatorId others validatorIndex nominators address n :
  n ∈ default [] (forEachOther validatorId others validatorIndex nominators !! address) ↔
  n ∈ default [] (nominators !! address) ∨
  (DeriveEraExposureNominating.validatorId n = validatorId ∧
   ∃ k : nat,
     DeriveEraExposureNominating.validatorIndex n = validatorIndex + Z.of_nat k ∧
     (IndividualExposure.who <$> others) !! k = Some address).
Proof.
  revert validatorIndex nominators.
  induction others as [|o rest IH]; intros i noms; simpl.
  - split; [by left | intros [?|(_ & k & _ & Hk)]; [done | by rewrite lookup_nil in Hk]].
  - rewrite IH. split.
    + intros [Hin|(Hv & k & Hidx & Hk)].
      * destruct (decide (IndividualExposure.who o = address)) as [Heq|Hne].
        -- rewrite Heq, lookup_insert_eq in Hin. simpl in Hin.
           apply elem_of_app in Hin as [?|Hn%list_elem_of_singleton]; [by left|].
           right. subst n. simpl. split; [done|]. exists 0%nat. simpl.
           split; [lia | by rewrite Heq].
        -- rewrite lookup_insert_ne in Hin by done. by left.
      * right. split; [done|]. exists (S k). simpl. split; [lia | done].
    + intros [Hin|(Hv & k & Hidx & Hk)].
      * left. destruct (decide (IndividualExposure.who o = address)) as [Heq|Hne].
        -- rewrite Heq, lookup_insert_eq. simpl. apply elem_of_app. by left.
        -- by rewrite lookup_insert_ne.
      * destruct k as [|k]; simpl in Hk.
        -- left. injection Hk as Heq. rewrite Heq, lookup_insert_eq. simpl.
           apply elem_of_app. right. apply list_elem_of_singleton.
           destruct n as [v idx]. simpl in *. f_equal; [done | lia].
        -- right. split; [done|]. exists k. split; [lia | done].
Qed.

Lemma forEachStaker_elem stakers nominators validators address n :
  n ∈ default [] ((forEachStaker stakers nominators validators).1 !! address) ↔
  n ∈ default [] (nominators !! address) ∨
  ∃ entry (k : nat),
    entry ∈ stakers ∧
    stakerId entry = DeriveEraExposureNominating.validatorId n ∧
    DeriveEraExposureNominating.validatorIndex n = Z.of_nat k ∧
    othersWho entry !! k = Some address.
Proof.
  revert nominators validators.
  induction stakers as [|[key exposure] rest IH]; intros noms vs; simpl.
  - split; [by left | intros [?|(e & k & H & _)]; [done | by apply elem_of_nil in H]].
  - rewrite IH, forEachOther_elem. split.
    + intros [[Hin|(Hv & k & Hidx & Hk)]|(entry & k & Hin & Hrest)].
      * by left.
      * right. exists (key, exposure), k. split; [left|]. by rewrite Z.add_0_l in Hidx.
      * right. exists entry, k. split; [by right | done].
    + intros [Hin|(entry & k & [->|Hin]%elem_of_cons & Hv & Hidx & Hk)].
      * left. by left.
      * left. right. split; [done|]. exists k. by rewrite Z.add_0_l.
      * right. by exists entry, k.
Qed.

Lemma forEachOther_is_Some validatorId others validatorIndex nominators address :
  is_Some (forEachOther validatorId others validatorIndex nominators !! address) ↔
  is_Some (nominators !! address) ∨ address ∈ IndividualExposure.who <$> others.
Proof.
  revert validatorIndex nominators.
  induction others as [|o rest IH]; intros i noms; simpl.
  - split; [by left | intros [?|H]; [done | by apply elem_of_nil in H]].
  - rewrite IH, elem_of_cons.
    destruct (decide (IndividualExposure.who o = address)) as [Heq|Hne].
    + rewrite Heq, lookup_insert_eq. split; [intros _; right; by left | intros _; left; eauto].
    + rewrite lookup_insert_ne by done.
      split; [intros [?|?]; auto | intros [?|[?|?]]; auto; congruence].
Qed.

Lemma forEachStaker_is_Some stakers nominators validators address :
  is_Some ((forEachStaker stakers nominators validators).1 !! address) ↔
  is_Some (nominators !! address) ∨ ∃ entry, entry ∈ stakers ∧ address ∈ othersWho entry.
Proof.
  revert nominators validators.
  induction stakers as [|[key exposure] rest IH]; intros noms vs; simpl.
  - split; [by left | intros [?|(e & H & _)]; [done | by apply elem_of_nil in H]].
  - rewrite IH, forEachOther_is_Some. split.
    + intros [[?|Hin]|(entry & Hin & Hwho)]; [by left | |].
      * right. exists (key, exposure). split; [left | done].
      * right. exists entry. split; [by right | done].
    + intros [?|(entry & [->|Hin]%elem_of_cons & Hwho)].
      * left. by left.
      * left. by right.
      * right. by exists entry.
Qed.


Lemma mapStakers_validators_last era stakers validatorId :
  DeriveEraExposure.validators (mapStakers era stakers) !! validatorId =
    snd <$> last (filter (λ entry, stakerId entry = validatorId) stakers).
Proof.
  unfold mapStakers.
  pose proof (forEachStaker_validators_last stakers ∅ ∅ validatorId) as H.
  destruct (forEachStaker stakers ∅ ∅) as [n vs]. simpl in *. rewrite H.
  destruct (last _); [done | by rewrite lookup_empty].
Qed.

Lemma mapStakers_validators_lookup era stakers entry :
  NoDup (stakerId <$> stakers) → entry ∈ stakers →
  DeriveEraExposure.validators (mapStakers era stakers) !! stakerId entry = Some entry.2.
Proof. intros Hnd Hin. by rewrite mapStakers_validators_last, last_filter_unique. Qed.

(** X1.  In the graph of [mapStakers] the exposure stored for a validator is
    that of the last raw entry with its key ([validators[validatorId] =
    exposure] overwrites); a validator with no raw entry has none.  When the
    keys of the raw entries are distinct every entry is found under its key. *)
Theorem X1_mapStakers_validators (era : EraIndex) (stakers : KeysAndExposures) :
  DeriveEraExposure.era (mapStakers era stakers) = era ∧
  (∀ validatorId,
     DeriveEraExposure.validators (mapStakers era stakers) !! validatorId =
       snd <$> last (filter (λ entry, stakerId entry = validatorId) stakers)) ∧
  (∀ validatorId,
     DeriveEraExposure.validators (mapStakers era stakers) !! validatorId = None ↔
     validatorId ∉ stakerId <$> stakers) ∧
  (NoDup (stakerId <$> stakers) →
   ∀ entry, entry ∈ stakers →
     DeriveEraExposure.validators (mapStakers era stakers) !! stakerId entry =
       Some entry.2).
Proof.
  split; [|split; [apply mapStakers_validators_last | split]].
  - unfold mapStakers. by destruct (forEachStaker stakers ∅ ∅).
  - intros v. rewrite <-mapStakers_validators with (era := era).
    rewrite eq_None_not_Some. done.
  - intros Hnd entry Hin. by apply mapStakers_validators_lookup.
Qed.

(** A witness of [X1_mapStakers_validators] on the example chain. *)
Lemma X1_mapStakers_validators_witness :
  DeriveEraExposure.validators (mapStakers 100%N (Example.stakers 100%N)) !! "W" =
    Some Example.exposureW.
Proof.
  destruct (X1_mapStakers_validators 100%N (Example.stakers 100%N)) as (_ & _ & _ & H).
  apply (H ltac:(by_decide) (StorageKey.mk (100%N, "W"), Example.exposureW)).
  unfold Example.stakers. right. left.
Defined.

(** X2.  In the graph of [mapStakers] the list kept for a nominator holds
    [{ validatorId, validatorIndex }] exactly for the raw entries of key
    [validatorId] whose [others] names the nominator at position
    [validatorIndex]; an account named in no [others] has no list. *)
Theorem X2_mapStakers_nominators (era : EraIndex) (stakers : KeysAndExposures)
    (address : string) :
  (∀ n,
     n ∈ default [] (DeriveEraExposure.nominators (mapStakers era stakers) !! address) ↔
     ∃ entry (k : nat),
       entry ∈ stakers ∧
       stakerId entry = DeriveEraExposureNominating.validatorId n ∧
       DeriveEraExposureNominating.validatorIndex n = Z.of_nat k ∧
       othersWho entry !! k = Some address) ∧
  (DeriveEraExposure.nominators (mapStakers era stakers) !! address = None ↔
   ∀ entry, entry ∈ stakers → address ∉ othersWho entry).
Proof.
  unfold mapStakers.
  pose proof (λ n, forEachStaker_elem stakers ∅ ∅ address n) as Helem.
  pose proof (forEachStaker_is_Some stakers ∅ ∅ address) as Hsome.
  destruct (forEachStaker stakers ∅ ∅) as [noms vs]. simpl in *. split.
  - intros n. rewrite Helem, lookup_empty. simpl.
    split; [intros [H|?]; [by apply elem_of_nil in H | done] | by right].
  - rewrite eq_None_not_Some, Hsome, lookup_empty. split.
    + intros H entry Hin Hwho. apply H. right. by exists entry.
    + intros H [[? [=]]|(entry & Hin & Hwho)]. by apply (H entry).
Qed.

Lemma explicitNominations_elem address stakers validatorId :
  validatorId ∈ explicitNominations address stakers ↔
  ∃ entry, entry ∈ stakers ∧ stakerId entry = validatorId ∧ address ∈ othersWho entry.
Proof.
  split; [apply explicitNominations_stakers|].
  intros (entry & Hin & <- & Hwho). unfold explicitNominations.
  apply list_elem_of_bind. exists entry. split; [|done].
  apply list_elem_of_fmap. exists address. split; [done|].
  by apply list_elem_of_filter.
Qed.

(** X3.  On the graph of [mapStakers], [deriveNominatedExposures] lists a
    validator exactly when a raw entry of that validator names the address
    in its [others], or when the validator is the address itself and has a
    raw entry.  The self-nomination, when there is one, is the last element
    and carries the index 9999; an address that no entry names and that is
    no validator gets the empty list. *)
Theorem X3_deriveNominatedExposures_members (address : string) (era : EraIndex)
    (stakers : KeysAndExposures) :
  ∃ l, deriveNominatedExposures address (mapStakers era stakers) = Some l ∧
       (∀ validatorId,
          validatorId ∈ validatorIds l ↔
          (∃ entry, entry ∈ stakers ∧ stakerId entry = validatorId ∧
                    address ∈ othersWho entry) ∨
          (validatorId = address ∧ address ∈ stakerId <$> stakers)) ∧
       (address ∈ stakerId <$> stakers →
        last l = Some (DeriveEraExposureNominating.mk address 9999)) ∧
       (address ∉ stakerId <$> stakers →
        (∀ entry, entry ∈ stakers → address ∉ othersWho entry) →
        l = []).
Proof.
  destruct (deriveNominatedExposures_ids address era stakers) as (l & Hl & Hids).
  exists l. split; [exact Hl|].
  assert (∀ v, v ∈ validatorIds l ↔
               (∃ entry, entry ∈ stakers ∧ stakerId entry = v ∧ address ∈ othersWho entry) ∨
               (v = address ∧ address ∈ stakerId <$> stakers)) as Hmem.
  { intros v. rewrite Hids, elem_of_app, explicitNominations_elem.
    case_decide as Hv.
    - rewrite list_elem_of_singleton. split; intros [?|?]; auto. right. tauto.
    - split; [intros [?|H]; [by left | by apply elem_of_nil in H]|].
      intros [?|[_ ?]]; [by left | done]. }
  split; [exact Hmem|]. split.
  - intros Hv%(mapStakers_validators era). unfold deriveNominatedExposures in Hl.
    destruct Hv as [exposure Hv]. rewrite Hv in Hl. injection Hl as <-.
    apply last_snoc.
  - intros Hnot Hnone. apply fmap_nil_inv with (f := DeriveEraExposureNominating.validatorId).
    fold (validatorIds l). destruct (validatorIds l) as [|v ids] eqn:Hv; [done|].
    assert (v ∈ v :: ids) as Hin by left.
    apply Hmem in Hin as [(entry & Hin & _ & Hwho)|[_ ?]]; [|done].
    by destruct (Hnone entry Hin).
Qed.



(** ** Reward points of a validator *)

Lemma entriesFind_first entries validatorId :
  entriesFind entries validatorId =
    snd <$> head (filter (λ entry, entry.1 = validatorId) entries).
Proof.
  induction entries as [|[id points] rest IH]; [done|].
  simpl. destruct (decide (id = validatorId)) as [Heq|Hne].
  - by rewrite (filter_cons_True (λ entry, entry.1 = validatorId)).
  - by rewrite (filter_cons_False (λ entry, entry.1 = validatorId)).
Qed.

(** X5.  [extractTotalValidatorRewardPoints] returns the points of the
    first entry of [individual] whose key is the validator, and nothing
    exactly when no entry has that key; what it returns is an entry of
    [individual]. *)
Theorem X5_extractTotalValidatorRewardPoints_first
    (eraRewardPoints : PalletStakingEraRewardPoints.t) (validatorId : string) :
  let individual := PalletStakingEraRewardPoints.individual eraRewardPoints in
  extractTotalValidatorRewardPoints eraRewardPoints validatorId =
    snd <$> head (filter (λ entry, entry.1 = validatorId) individual) ∧
  (extractTotalValidatorRewardPoints eraRewardPoints validatorId = None ↔
   validatorId ∉ fst <$> individual) ∧
  (∀ points,
     extractTotalValidatorRewardPoints eraRewardPoints validatorId = Some points →
     (validatorId, points) ∈ individual).
Proof.
  intros individual. unfold extractTotalValidatorRewardPoints. fold individual.
  split; [apply entriesFind_first|]. split.
  - induction individual as [|[id points] rest IH]; simpl.
    + split; [intros _ H; by apply elem_of_nil in H | done].
    + destruct (decide (id = validatorId)) as [->|Hne].
      * split; [done | intros H; destruct H; left].
      * rewrite IH. split.
        -- intros H [?|?]%elem_of_cons; [congruence | done].
        -- intros H Hin. apply H. by right.
  - intros points. induction individual as [|[id p] rest IH]; simpl; [done|].
    destruct (decide (id = validatorId)) as [->|Hne].
    + intros [= ->]. left.
    + intros H. right. by apply IH.
Qed.

(** A witness of [X3_deriveNominatedExposures_members]: [V] on the example
    chain, a validator that [W] names in its [others]. *)
Lemma X3_deriveNominatedExposures_members_witness :
  ∃ l, deriveNominatedExposures "V" (mapStakers 100%N (Example.stakers 100%N)) = Some l ∧
       last l = Some (DeriveEraExposureNominating.mk "V" 9999).
Proof.
  destruct (X3_deriveNominatedExposures_members "V" 100%N (Example.stakers 100%N))
    as (l & Hl & _ & Hlast & _).
  exists l. split; [exact Hl|]. apply Hlast. by_decide.
Defined.

(** A witness of [X5_extractTotalValidatorRewardPoints_first]: the points of
    [W] on the example chain. *)
Lemma X5_extractTotalValidatorRewardPoints_first_witness :
  ("W", 250%N) ∈ PalletStakingEraRewardPoints.individual (Example.rewardPoints 100%N).
Proof.
  destruct (X5_extractTotalValidatorRewardPoints_first (Example.rewardPoints 100%N) "W")
    as (_ & _ & H).
  apply H. reflexivity.
Defined.

(** ** The payouts of an era, entry by entry *)

Lemma Array_find_elem {A} (p : A → bool) (l : list A) x :
  Array_find p l = Some x → x ∈ l ∧ p x = true.
Proof.
  induction l as [|y l IH]; simpl; [done|].
  destruct (p y) eqn:Hy.
  - intros [= <-]. split; [left | done].
  - intros [Hin Hp]%IH. split; [by right | done].
Qed.

Section PayoutEntries.

Variable calc_payout :
  RewardPoint → Balance → RewardPoint → Perbill → Balance → Balance → bool → string.

Variables (address : string) (eraData : IEraData.t).
Variables (totalEraRewardPoints : RewardPoint) (totalEraPayout : Balance).

Local Abbreviation payoutOf' u :=
  (payoutOf calc_payout address u eraData totalEraRewardPoints totalEraPayout).
Local Abbreviation payoutsLoop' u :=
  (payoutsLoop calc_payout address u eraData totalEraRewardPoints totalEraPayout).

(** The amount of an entry is the primitive applied to the fields of the
    entry. *)
Lemma payoutOf_amount unclaimedOnly x p :
  payoutOf' unclaimedOnly x = Ok (Some p) →
  IPayout.nominatorStakingPayout p =
    calc_payout totalEraRewardPoints totalEraPayout
      (IPayout.totalValidatorRewardPoints p) (IPayout.validatorCommission p)
      (IPayout.nominatorExposure p) (IPayout.totalValidatorExposure p)
      (bool_decide (address = IPayout.validatorId p)).
Proof.
  unfold payoutOf.
  destruct (extractTotalValidatorRewardPoints _ _) as [pts|]; [|done].
  destruct (pts =? 0)%N; [done|].
  destruct (extractExposure _ _ _) as [[tot [ne|]]|]; simpl; [|done..].
  destruct (ExposureWithCommission.spread x) as [c|]; simpl; [|done].
  destruct (ICommissionAndLedger.validatorLedger c) as [ledger|]; [|done].
  destruct (resolveIndexOfEra _ _) as [i|]; [|done].
  destruct (unclaimedOnly && claimedOf i); [done|].
  by intros [= <-].
Qed.

(** An eligible element gives an entry. *)
Lemma payoutOf_eligible unclaimedOnly x points totalExposure nominatorExposure c
    validatorLedger indexOfEra :
  extractTotalValidatorRewardPoints (IEraData.eraRewardPoints eraData)
    (ExposureWithCommission.validatorId x) = Some points →
  points ≠ 0%N →
  extractExposure address (ExposureWithCommission.validatorId x)
    (IEraData.deriveEraExposure eraData) = Ok (totalExposure, Some nominatorExposure) →
  ExposureWithCommission.spread x = Some c →
  ICommissionAndLedger.validatorLedger c = Some validatorLedger →
  resolveIndexOfEra validatorLedger (IEraData.eraIndex eraData) = Some indexOfEra →
  unclaimedOnly && claimedOf indexOfEra = false →
  ∃ amount,
    payoutOf' unclaimedOnly x =
      Ok (Some (IPayout.mk (ExposureWithCommission.validatorId x) amount
                  (claimedOf indexOfEra) points (ICommissionAndLedger.commission c)
                  totalExposure nominatorExposure)).
Proof.
  intros Hpts Hnz Hexp Hc Hledger Hres Hskip. unfold payoutOf.
  rewrite Hpts. destruct (N.eqb_spec points 0); [done|].
  rewrite Hexp. simpl. rewrite Hc, Hledger, Hres, Hskip. by eexists.
Qed.

(** The loop keeps what was pushed and pushes every entry it computes, in
    the order of the elements. *)
Lemma payoutsLoop_shape unclaimedOnly entries acc payouts :
  payoutsLoop' unclaimedOnly entries acc = Ok payouts →
  ∃ pushed,
    payouts = acc ++ pushed ∧
    IPayout.validatorId <$> pushed `sublist_of`
      ExposureWithCommission.validatorId <$> entries ∧
    ∀ x p, x ∈ entries → payoutOf' unclaimedOnly x = Ok (Some p) → p ∈ pushed.
Proof.
  revert acc payouts. induction entries as [|x rest IH]; intros acc payouts; simpl.
  - intros [= <-]. exists []. rewrite app_nil_r. split; [done|]. split; [done|].
    intros x p H. by apply elem_of_nil in H.
  - destruct (payoutOf' unclaimedOnly x) as [o|] eqn:Hx; simpl; [|done].
    intros (pushed & -> & Hsub & Hall)%IH. destruct o as [q|].
    + exists (q :: pushed). rewrite <-app_assoc. split; [done|]. split.
      * destruct (payoutOf_Some calc_payout address eraData totalEraRewardPoints
                    totalEraPayout unclaimedOnly x q Hx) as [Hid _].
        change (IPayout.validatorId q :: (IPayout.validatorId <$> pushed) `sublist_of`
                  ExposureWithCommission.validatorId x
                  :: (ExposureWithCommission.validatorId <$> rest)).
        rewrite Hid. by apply sublist_skip.
      * intros y p [->|Hy]%elem_of_cons Hp.
        -- rewrite Hx in Hp. injection Hp as <-. left.
        -- right. by eapply Hall.
    + exists pushed. split; [done|]. split.
      * change (IPayout.validatorId <$> pushed `sublist_of`
                  ExposureWithCommission.validatorId x
                  :: (ExposureWithCommission.validatorId <$> rest)).
        by apply sublist_cons.
      * intros y p [->|Hy]%elem_of_cons Hp; [congruence|]. by eapply Hall.
Qed.

End PayoutEntries.

(** X6.  The payouts of an era follow the order of
    [exposuresWithCommission]: their validators form a sub-list of the
    validators listed there, one entry at most per element, so there are
    never more payouts than nominated validators. *)
Theorem X6_payouts_follow_exposures
    (calc_payout : RewardPoint → Balance → RewardPoint → Perbill → Balance → Balance → bool → string)
    (address : string) (unclaimedOnly : bool) (eraData : IEraData.t)
    (era : EraIndex) (totalEraRewardPoints : RewardPoint) (totalEraPayout : Balance)
    (payouts : list IPayout.t) :
  deriveEraPayouts calc_payout address unclaimedOnly eraData =
    Ok (EraPayouts era totalEraRewardPoints totalEraPayout payouts) →
  ∃ exposuresWithCommission,
    IEraData.exposuresWithCommission eraData = Some exposuresWithCommission ∧
    IPayout.validatorId <$> payouts `sublist_of`
      ExposureWithCommission.validatorId <$> exposuresWithCommission ∧
    (length payouts ≤ length exposuresWithCommission)%nat.
Proof.
  intros (ewc & Hewc & _ & _ & _ & Hloop)%deriveEraPayouts_inv.
  exists ewc. split; [done|].
  apply payoutsLoop_shape in Hloop as (pushed & -> & Hsub & _). simpl.
  split; [done|]. apply sublist_length in Hsub. by rewrite !length_fmap in Hsub.
Qed.

(** A witness of [X6_payouts_follow_exposures]: era 98 of the example chain
    asked for [A] with [unclaimedOnly]; the payout behind [V] is dropped and
    the one behind [W] stays. *)
Lemma X6_payouts_follow_exposures_witness :
  ∃ exposuresWithCommission,
    IEraData.exposuresWithCommission
      (eraDataAt Example.historicApi Example.rewardPoints "A" 98%N) =
      Some exposuresWithCommission ∧
    ["W"] `sublist_of` ExposureWithCommission.validatorId <$> exposuresWithCommission ∧
    (1 ≤ length exposuresWithCommission)%nat.
Proof.
  apply (X6_payouts_follow_exposures Example.calc_payout "A" true
           (eraDataAt Example.historicApi Example.rewardPoints "A" 98%N)
           98%N 1000%N 1000000%N
           [IPayout.mk "W" "56250" false 250%N 100000000%N 400%N 100%N]).
  vm_compute. reflexivity.
Defined.

(** X7.  In every payout entry the amount is the payout primitive applied
    to the totals of the era and to the fields of the entry, with the
    validator flag set exactly when the validator is the address; the total
    exposure is that of the validator in the graph, and the exposure of the
    address is [own] for the address itself and otherwise the value of an
    element of [others] naming the address. *)
Theorem X7_payout_entry_fields
    (calc_payout : RewardPoint → Balance → RewardPoint → Perbill → Balance → Balance → bool → string)
    (address : string) (unclaimedOnly : bool) (eraData : IEraData.t)
    (era : EraIndex) (totalEraRewardPoints : RewardPoint) (totalEraPayout : Balance)
    (payouts : list IPayout.t) :
  deriveEraPayouts calc_payout address unclaimedOnly eraData =
    Ok (EraPayouts era totalEraRewardPoints totalEraPayout payouts) →
  ∀ p, p ∈ payouts →
    IPayout.nominatorStakingPayout p =
      calc_payout (PalletStakingEraRewardPoints.total (IEraData.eraRewardPoints eraData))
        totalEraPayout
        (IPayout.totalValidatorRewardPoints p) (IPayout.validatorCommission p)
        (IPayout.nominatorExposure p) (IPayout.totalValidatorExposure p)
        (bool_decide (address = IPayout.validatorId p)) ∧
    ∃ exposure,
      DeriveEraExposure.validators (IEraData.deriveEraExposure eraData)
        !! IPayout.validatorId p = Some exposure ∧
      IPayout.totalValidatorExposure p = PalletStakingExposure.total exposure ∧
      (address = IPayout.validatorId p →
       IPayout.nominatorExposure p = PalletStakingExposure.own exposure) ∧
      (address ≠ IPayout.validatorId p →
       ∃ o, o ∈ PalletStakingExposure.others exposure ∧
            IndividualExposure.who o = address ∧
            IndividualExposure.value o = IPayout.nominatorExposure p).
Proof.
  intros (ewc & _ & _ & -> & _ & Hloop)%deriveEraPayouts_inv p Hp.
  destruct (payoutsLoop_elem _ _ _ _ _ _ _ _ _ Hloop p Hp)
    as [Hnil|(x & _ & Hpx)]; [by apply elem_of_nil in Hnil|].
  split; [by eapply payoutOf_amount|].
  apply payoutOf_Some in Hpx as (_ & _ & _ & Hexp & _).
  destruct (DeriveEraExposure.validators (IEraData.deriveEraExposure eraData)
              !! IPayout.validatorId p) as [exposure|] eqn:Hv.
  2: { by rewrite (extractExposure_Throw _ _ _ Hv) in Hexp. }
  rewrite (extractExposure_Ok _ _ _ _ Hv) in Hexp. exists exposure. split; [done|].
  destruct (decide (address = IPayout.validatorId p)) as [Heq|Hne].
  - injection Hexp as <- <-. done.
  - destruct (Array_find _ _) as [o|] eqn:Hfind; simpl in Hexp; [|done].
    injection Hexp as <- <-. split; [done|]. split; [done|]. intros _.
    apply Array_find_elem in Hfind as [Hin Ho]. exists o.
    split; [done|]. split; [by apply bool_decide_eq_true in Ho | done].
Qed.

(** A witness of [X7_payout_entry_fields]: the payout of [A] behind [W] for
    era 98 of the example chain. *)
Lemma X7_payout_entry_fields_witness :
  "56250" =
    Example.calc_payout 1000%N 1000000%N 250%N 100000000%N 100%N 400%N
      (bool_decide ("A" = "W")).
Proof.
  destruct (X7_payout_entry_fields Example.calc_payout "A" true
              (eraDataAt Example.historicApi Example.rewardPoints "A" 98%N)
              98%N 1000%N 1000000%N
              [IPayout.mk "W" "56250" false 250%N 100000000%N 400%N 100%N]
              ltac:(vm_compute; reflexivity)
              (IPayout.mk "W" "56250" false 250%N 100000000%N 400%N 100%N))
    as [H _]; [left | exact H].
Defined.

(** X8.  Every element of [exposuresWithCommission] that passes the tests of
    the loop is paid: when the validator has reward points that are not
    zero, the exposure of the address behind it is defined, its ledger
    resolves to an [indexOfEra], and the entry is not claimed or
    [unclaimedOnly] is off, the payouts of the era hold an entry for that
    validator with these points, exposures, commission and claimed flag. *)
Theorem X8_eligible_validators_are_paid
    (calc_payout : RewardPoint → Balance → RewardPoint → Perbill → Balance → Balance → bool → string)
    (address : string) (unclaimedOnly : bool) (eraData : IEraData.t)
    (era : EraIndex) (totalEraRewardPoints : RewardPoint) (totalEraPayout : Balance)
    (payouts : list IPayout.t) (exposuresWithCommission : list ExposureWithCommission.t)
    (x : ExposureWithCommission.t) (points : RewardPoint)
    (totalExposure nominatorExposure : Balance) (c : ICommissionAndLedger.t)
    (validatorLedger : StakingLedger.t) (indexOfEra : Z) :
  deriveEraPayouts calc_payout address unclaimedOnly eraData =
    Ok (EraPayouts era totalEraRewardPoints totalEraPayout payouts) →
  IEraData.exposuresWithCommission eraData = Some exposuresWithCommission →
  x ∈ exposuresWithCommission →
  extractTotalValidatorRewardPoints (IEraData.eraRewardPoints eraData)
    (ExposureWithCommission.validatorId x) = Some points →
  points ≠ 0%N →
  extractExposure address (ExposureWithCommission.validatorId x)
    (IEraData.deriveEraExposure eraData) = Ok (totalExposure, Some nominatorExposure) →
  ExposureWithCommission.spread x = Some c →
  ICommissionAndLedger.validatorLedger c = Some validatorLedger →
  resolveIndexOfEra validatorLedger (IEraData.eraIndex eraData) = Some indexOfEra →
  (unclaimedOnly = true → claimedOf indexOfEra = false) →
  ∃ p, p ∈ payouts ∧
       IPayout.validatorId p = ExposureWithCommission.validatorId x ∧
       IPayout.claimed p = claimedOf indexOfEra ∧
       IPayout.totalValidatorRewardPoints p = points ∧
       IPayout.validatorCommission p = ICommissionAndLedger.commission c ∧
       IPayout.totalValidatorExposure p = totalExposure ∧
       IPayout.nominatorExposure p = nominatorExposure.
Proof.
  intros (ewc & Hewc & _ & _ & _ & Hloop)%deriveEraPayouts_inv Hewc' Hx
    Hpts Hnz Hexp Hc Hledger Hres Hunclaimed.
  assert (ewc = exposuresWithCommission) as -> by congruence.
  apply payoutsLoop_shape in Hloop as (pushed & -> & _ & Hall).
  destruct (payoutOf_eligible calc_payout address eraData totalEraRewardPoints
              totalEraPayout unclaimedOnly x points totalExposure nominatorExposure c
              validatorLedger indexOfEra Hpts Hnz Hexp Hc Hledger Hres) as [amount Hp].
  { destruct unclaimedOnly; [|done]. by rewrite Hunclaimed. }
  eexists. split; [eapply Hall; [exact Hx | exact Hp]|]. done.
Qed.

(** A witness of [X8_eligible_validators_are_paid]: [W] for [A] in era 98
    of the example chain, with [unclaimedOnly]. *)
Lemma X8_eligible_validators_are_paid_witness :
  ∃ p, p ∈ [IPayout.mk "W" "56250" false 250%N 100000000%N 400%N 100%N] ∧
       IPayout.validatorId p = "W" ∧
       IPayout.claimed p = false ∧
       IPayout.totalValidatorRewardPoints p = 250%N ∧
       IPayout.validatorCommission p = 100000000%N ∧
       IPayout.totalValidatorExposure p = 400%N ∧
       IPayout.nominatorExposure p = 100%N.
Proof.
  apply (X8_eligible_validators_are_paid Example.calc_payout "A" true
           (eraDataAt Example.historicApi Example.rewardPoints "A" 98%N)
           98%N 1000%N 1000000%N
           [IPayout.mk "W" "56250" false 250%N 100000000%N 400%N 100%N]
           [ExposureWithCommission.mk "V"
              (Some (ICommissionAndLedger.mk 100000000%N (Some Example.ledgerV)));
            ExposureWithCommission.mk "W"
              (Some (ICommissionAndLedger.mk 100000000%N (Some Example.ledgerW)))]
           (ExposureWithCommission.mk "W"
              (Some (ICommissionAndLedger.mk 100000000%N (Some Example.ledgerW))))
           250%N 400%N 100%N
           (ICommissionAndLedger.mk 100000000%N (Some Example.ledgerW))
           Example.ledgerW (-1)).
  - vm_compute. reflexivity.
  - vm_compute. reflexivity.
  - right. left.
  - reflexivity.
  - done.
  - vm_compute. reflexivity.
  - reflexivity.
  - reflexivity.
  - reflexivity.
  - reflexivity.
Defined.

Lemma nominated_ids_NoDup address era stakers l :
  NoDup (stakerId <$> stakers) →
  Forall (λ entry, NoDup (othersWho entry)) stakers →
  Forall (λ entry, stakerId entry = address → address ∉ othersWho entry) stakers →
  deriveNominatedExposures address (mapStakers era stakers) = Some l →
  NoDup (validatorIds l).
Proof.
  intros Hkeys Hothers Hself Hl.
  destruct (deriveNominatedExposures_ids address era stakers) as (l' & Hl' & Hids).
  assert (l' = l) as -> by congruence.
  rewrite Hids, (explicitNominations_filter _ _ Hothers).
  case_decide; [|rewrite app_nil_r].
  - apply NoDup_app. split; [|split; [|apply NoDup_singleton]].
    + eapply sublist_NoDup; [exact Hkeys|]. apply fmap_sublist, sublist_filter.
    + intros v (entry & -> & [Hwho Hin]%list_elem_of_filter)%list_elem_of_fmap
        Heq%list_elem_of_singleton.
      rewrite Forall_forall in Hself. by apply (Hself entry Hin).
  - eapply sublist_NoDup; [exact Hkeys|]. apply fmap_sublist, sublist_filter.
Qed.

(** X9.  On chain data of an era with distinct validator keys, in which no
    [others] list names a nominator twice and no validator is named in its
    own [others], the payouts derived for the era hold at most one entry per
    validator. *)
Theorem X9_one_payout_per_validator
    (calc_payout : RewardPoint → Balance → RewardPoint → Perbill → Balance → Balance → bool → string)
    (historicApi : HistoricApi.t)
    (erasRewardPoints : EraIndex → PalletStakingEraRewardPoints.t)
    (address : string) (unclaimedOnly : bool) (eraIndex era : EraIndex)
    (totalEraRewardPoints : RewardPoint) (totalEraPayout : Balance)
    (payouts : list IPayout.t) :
  let stakers := HistoricApi.query_staking_erasStakersClipped_entries historicApi eraIndex in
  NoDup (stakerId <$> stakers) →
  Forall (λ entry, NoDup (othersWho entry)) stakers →
  Forall (λ entry, stakerId entry = address → address ∉ othersWho entry) stakers →
  deriveEraPayouts calc_payout address unclaimedOnly
    (eraDataAt historicApi erasRewardPoints address eraIndex) =
    Ok (EraPayouts era totalEraRewardPoints totalEraPayout payouts) →
  NoDup (IPayout.validatorId <$> payouts).
Proof.
  intros stakers Hkeys Hothers Hself
    (ewc & Hewc & _ & _ & _ & Hloop)%deriveEraPayouts_inv.
  apply payoutsLoop_shape in Hloop as (pushed & -> & Hsub & _). simpl.
  eapply sublist_NoDup; [|exact Hsub].
  unfold eraDataAt in Hewc. cbn [IEraData.exposuresWithCommission] in Hewc.
  fold stakers in Hewc.
  destruct (deriveNominatedExposures address (mapStakers eraIndex stakers))
    as [l|] eqn:Hl; [|done].
  injection Hewc as <-. rewrite <-list_fmap_compose.
  by apply (nominated_ids_NoDup address eraIndex stakers).
Qed.

(** A witness of [X9_one_payout_per_validator]: the payouts of [A] for era
    100 of the example chain. *)
Lemma X9_one_payout_per_validator_witness : NoDup ["V"; "W"].
Proof.
  apply (X9_one_payout_per_validator Example.calc_payout Example.historicApi
           Example.rewardPoints "A" false 100%N 100%N 1000%N 1000000%N
           [IPayout.mk "V" "90000" true 500%N 100000000%N 1000%N 200%N;
            IPayout.mk "W" "56250" true 250%N 100000000%N 400%N 100%N]);
    [by_decide | by_decide | by_decide | vm_compute; reflexivity].
Defined.

(** ** The ledger cache *)






(** ** General data of the eras, request by request *)

(** X12.  On a runtime with [erasRewardPoints], for a range of eras whose
    numbers an [EraIndex] holds ([startEra] not negative, [era] below
    [2^32]), [fetchAllErasGeneral] sends three requests per era of the range,
    for the exposures, the reward points and the validator reward of that
    era, era after era, and resolves to the triples of these eras in the same
    order, whatever the order in which its promises settle; it leaves the
    ledger cache alone.  When [era] is below [startEra] it sends nothing and
    resolves to the empty array.  When the range holds a number that an
    [EraIndex] does not hold the call fails with the error of the codec, and
    with no request sent when that number is [startEra]. *)
Theorem X12_fetchAllErasGeneral_requests (api : Api.t) (historicApi : HistoricApi.t)
    (erasRewardPoints : EraIndex → PalletStakingEraRewardPoints.t)
    (startEra era : Z) (blockNumber : N) (s : Request.t) :
  HistoricApi.query_staking_erasRewardPoints historicApi = Some erasRewardPoints →
  let eras := seqZ startEra (era - startEra + 1) in
  (0 ≤ startEra → era < 2 ^ 32 →
   fetchAllErasGeneral api historicApi startEra era blockNumber s =
     (Ok ((λ e, erasGeneralAt historicApi erasRewardPoints (Z.to_N e)) <$> eras),
      Request.mk (Request.validatorLedgerCache s)
        (Request.queries s ++
         (e ← eras;
          [Q_erasStakersClipped_entries (Z.to_N e);
           Q_erasRewardPoints (Z.to_N e);
           Q_erasValidatorReward (Z.to_N e)]))
        (tail (Request.completions s)))) ∧
  (era < startEra →
   fetchAllErasGeneral api historicApi startEra era blockNumber s =
     (Ok [], Request.popCompletion s)) ∧
  (startEra ≤ era → startEra < 0 ∨ 2 ^ 32 ≤ era →
   ∃ msg s',
     fetchAllErasGeneral api historicApi startEra era blockNumber s =
       (Throw (PlainError msg), s') ∧
     (startEra < 0 ∨ 2 ^ 32 ≤ startEra → s' = s)).
Proof.
  intros Hrp eras. split; [|split].
  - intros Hstart Hera. unfold fetchAllErasGeneral. cbv zeta. rewrite bind_run.
    rewrite (fetchAllErasGeneral_loop_requests _ _ erasRewardPoints) by
      (try done; apply Forall_forall; intros e He%elem_of_seqZ; lia).
    rewrite app_nil_l, Promise_all_mret_fmap. reflexivity.
  - intros Hempty. unfold fetchAllErasGeneral. cbv zeta.
    rewrite seqZ_nil by lia. cbn [fetchAllErasGeneral_loop].
    apply (Promise_all_mret []).
  - intros Hrange Hout. unfold fetchAllErasGeneral. cbv zeta. rewrite bind_run.
    destruct (decide (startEra < 0 ∨ 2 ^ 32 ≤ startEra)) as [Hfirst|Hfirst].
    + rewrite seqZ_cons by lia. cbn [fetchAllErasGeneral_loop]. rewrite Hrp.
      rewrite bind_run. unfold liftOutcome at 1.
      destruct (createType_EraIndex startEra) as [eraIndex|err] eqn:Hcreate.
      { apply createType_EraIndex_inv in Hcreate. lia. }
      apply createType_EraIndex_Throw in Hcreate as [_ [msg ->]].
      by exists msg, s.
    + edestruct (fetchAllErasGeneral_loop_modern api historicApi erasRewardPoints)
        as [s' ->]; [done|].
      destruct (mapM_createType_EraIndex (seqZ startEra (era - startEra + 1)))
        as [[Hall _]|[_ [msg ->]]].
      * rewrite Forall_forall in Hall.
        assert (era ∈ seqZ startEra (era - startEra + 1)) as Hin
          by (apply elem_of_seqZ; lia).
        apply Hall in Hin. lia.
      * exists msg, s'. split; [done|]. intros ?. lia.
Qed.

(** A witness of [X12_fetchAllErasGeneral_requests]: the eras 99 and 100 of
    the example chain. *)
Lemma X12_fetchAllErasGeneral_requests_witness :
  Request.queries
    (snd (fetchAllErasGeneral Example.api Example.historicApi 99 100 1234%N Request.init)) =
    [Q_erasStakersClipped_entries 99%N; Q_erasRewardPoints 99%N; Q_erasValidatorReward 99%N;
     Q_erasStakersClipped_entries 100%N; Q_erasRewardPoints 100%N;
     Q_erasValidatorReward 100%N].
Proof.
  destruct (X12_fetchAllErasGeneral_requests Example.api Example.historicApi
              Example.rewardPoints 99 100 1234%N Request.init) as [Hrun _];
    [reflexivity|].
  rewrite Hrun; [reflexivity | lia | lia].
Defined.

Lemma historicPoints_blocks api d eras block :
  historicPoints api d eras block =
    (λ b, Api.at_query_staking_currentEraPointsEarned api (Api.rpc_chain_getBlockHash api b))
      <$> ((λ k : nat, block - Z.of_nat k * d) <$> seq 0 (length eras)).
Proof.
  revert block. induction eras as [|e rest IH]; intros block; [done|].
  cbn [historicPoints length seq]. rewrite IH, !fmap_cons, <-fmap_S_seq.
  replace (block - Z.of_nat 0 * d) with block by lia. f_equal.
  rewrite <-!list_fmap_compose. apply list_fmap_ext. intros i k _. simpl. do 2 f_equal. lia.
Qed.

Lemma historicQueries_blocks api d eras block :
  omap (λ q, match q with Q_getBlockHash b => Some b | _ => None end)
    (historicQueries api d eras block) =
  (λ k : nat, block - Z.of_nat k * d) <$> seq 0 (length eras).
Proof.
  revert block. induction eras as [|e rest IH]; intros block; [done|].
  cbn [historicQueries length seq app omap list_omap]. rewrite IH.
  rewrite fmap_cons, <-fmap_S_seq, <-list_fmap_compose. f_equal; [lia|].
  apply list_fmap_ext. intros i k _. simpl. lia.
Qed.

(** X13.  On a runtime without [erasRewardPoints], [fetchAllErasGeneral]
    reads one [currentEraPointsEarned] per era of the range, the first at the
    block of the request and each next one [sessionsPerEra * epochDuration]
    blocks earlier: the block hashes asked are those of
    [block - k * sessionsPerEra * epochDuration] for [k = 0, 1, ...], and the
    array resolved holds the points read at these blocks, in that order. *)
Theorem X13_legacy_blocks_step_back (api : Api.t) (historicApi : HistoricApi.t)
    (startEra era : Z) (blockNumber : N) (s : Request.t) :
  HistoricApi.query_staking_erasRewardPoints historicApi = None →
  let eraDurationInBlocks :=
    Z.of_N (HistoricApi.consts_staking_sessionsPerEra historicApi) *
    Z.of_N (HistoricApi.consts_babe_epochDuration historicApi) in
  let blocks :=
    (λ k : nat, Z.of_N blockNumber - Z.of_nat k * eraDurationInBlocks)
      <$> seq 0 (Z.to_nat (era - startEra + 1)) in
  ∃ queries,
    fetchAllErasGeneral api historicApi startEra era blockNumber s =
      (Ok ((λ b, PointsTuple
                   (Api.at_query_staking_currentEraPointsEarned api
                      (Api.rpc_chain_getBlockHash api b))) <$> blocks),
       Request.mk (Request.validatorLedgerCache s) (Request.queries s ++ queries)
         (tail (Request.completions s))) ∧
    omap (λ q, match q with Q_getBlockHash b => Some b | _ => None end) queries = blocks.
Proof.
  intros Hrp d blocks. unfold fetchAllErasGeneral. cbv zeta. rewrite bind_run.
  rewrite (fetchAllErasGeneral_loop_legacy api historicApi _ _ _ _ Hrp). cbv zeta.
  rewrite app_nil_l, Promise_all_mret_fmap. fold d.
  exists (historicQueries api d (seqZ startEra (era - startEra + 1)) (Z.of_N blockNumber)).
  rewrite historicPoints_blocks, historicQueries_blocks, length_seqZ. fold blocks.
  split; [|done]. by rewrite <-list_fmap_compose.
Qed.

(** A witness of [X13_legacy_blocks_step_back]: three eras on a runtime
    without [erasRewardPoints], with 6 sessions of 2400 blocks per era, from
    block 100000. *)
Lemma X13_legacy_blocks_step_back_witness :
  ∃ queries,
    Request.queries
      (snd (fetchAllErasGeneral Example.api
              (HistoricApi.mk None 6 2400 None None None (λ _, None) (λ _, [])
                 (λ _ _, 0%N) (λ _, None) (λ _, None))
              1 3 100000%N Request.init)) = queries ∧
    omap (λ q, match q with Q_getBlockHash b => Some b | _ => None end) queries =
      [100000; 85600; 71200].
Proof.
  destruct (X13_legacy_blocks_step_back Example.api
              (HistoricApi.mk None 6 2400 None None None (λ _, None) (λ _, [])
                 (λ _ _, 0%N) (λ _, None) (λ _, None))
              1 3 100000%N Request.init) as (qs & Hrun & Hqs); [reflexivity|].
  exists qs. rewrite Hrun. split; [reflexivity | exact Hqs].
Defined.

(** ** The entry point on the two kinds of runtime *)

(** X14.  On a runtime without [erasRewardPoints] a request that the range
    checks accept fails with a [TypeError] as soon as its range holds an
    era: the tuples of [fetchAllErasGeneral] carry no exposure graph and the
    read of [nominators] throws.  Only a request with an empty range
    ([era] below the start era) is answered, with no era at all. *)
Theorem X14_runtime_without_erasRewardPoints
    (calc_payout : RewardPoint → Balance → RewardPoint → Perbill → Balance → Balance → bool → string)
    (api : Api.t) (hash : BlockHash) (address : string) (depth era : Z)
    (unclaimedOnly : bool) (currentEra : Z) (historicApi : HistoricApi.t)
    (s : Request.t) (historyDepth : N) :
  HistoricApi.query_staking_erasRewardPoints historicApi = None →
  fst (resolveHistoryDepth historicApi currentEra s) = Ok historyDepth →
  historyDepth = 0%N ∨
  (depth ≤ Z.of_N historyDepth ∧ currentEra - Z.of_N historyDepth ≤ era - (depth - 1)) →
  let result :=
    fst (fetchAccountStakingPayout calc_payout api hash address depth era unclaimedOnly
           currentEra historicApi s) in
  (Z.max 0 (era - (depth - 1)) ≤ era → ∃ msg, result = Throw (TypeError msg)) ∧
  (era < Z.max 0 (era - (depth - 1)) →
   result = Ok (IAccountStakingPayouts.mk
                  (At.mk (Api.rpc_chain_getHeader_number api hash) hash) [])).
Proof.
  intros Hrp Hhd Hpass result. subst result.
  destruct (run_legacy calc_payout api hash address depth era unclaimedOnly currentEra
              historicApi s historyDepth Hrp Hhd) as (s' & ->).
  { unfold rangeRefused. lia. }
  unfold JS.Math_max. simpl. split.
  - intros Hle. rewrite seqZ_cons by lia. by eexists.
  - intros Hlt. by rewrite seqZ_nil by lia.
Qed.

(** A witness of [X14_runtime_without_erasRewardPoints]: era 3 asked with
    depth 1 on a runtime that has none of the modern items. *)
Lemma X14_runtime_without_erasRewardPoints_witness :
  ∃ msg,
    fst (fetchAccountStakingPayout Example.calc_payout Example.api "0xb10c" "A" 1 3 false 5
           (HistoricApi.mk None 6 2400 None None None (λ _, None) (λ _, [])
              (λ _ _, 0%N) (λ _, None) (λ _, None))
           Request.init) = Throw (TypeError msg).
Proof.
  destruct (X14_runtime_without_erasRewardPoints Example.calc_payout Example.api "0xb10c"
              "A" 1 3 false 5
              (HistoricApi.mk None 6 2400 None None None (λ _, None) (λ _, [])
                 (λ _ _, 0%N) (λ _, None) (λ _, None))
              Request.init 0%N) as [H _];
    [reflexivity | reflexivity | by left |].
  apply H. lia.
Defined.

(** X15.  In every answer the [at] member is the height of the block asked
    and its hash, and the [i]-th entry follows the [ErasValidatorReward] of
    era [startEra + i]: it is the message that the era has none when the
    chain has none, and otherwise a payout breakdown whose era index is that
    era, whose total reward points are the [total] of the reward points of
    the era and whose total payout is that reward. *)
Theorem X15_entries_follow_validator_reward
    (calc_payout : RewardPoint → Balance → RewardPoint → Perbill → Balance → Balance → bool → string)
    (api : Api.t) (hash : BlockHash) (address : string) (depth era : Z)
    (unclaimedOnly : bool) (currentEra : Z) (historicApi : HistoricApi.t)
    (s : Request.t) (r : IAccountStakingPayouts.t) :
  fst (fetchAccountStakingPayout calc_payout api hash address depth era unclaimedOnly
         currentEra historicApi s) = Ok r →
  IAccountStakingPayouts.at_ r = At.mk (Api.rpc_chain_getHeader_number api hash) hash ∧
  ∀ (i : nat) entry,
    IAccountStakingPayouts.erasPayouts r !! i = Some entry →
    let eraIndex := Z.to_N (Z.max 0 (era - (depth - 1)) + Z.of_nat i) in
    match HistoricApi.query_staking_erasValidatorReward historicApi eraIndex with
    | None => entry = Message ("No ErasValidatorReward for the era " +:+ pretty eraIndex)
    | Some totalEraPayout =>
        ∃ erasRewardPoints payouts,
          HistoricApi.query_staking_erasRewardPoints historicApi = Some erasRewardPoints ∧
          entry = EraPayouts eraIndex
                    (PalletStakingEraRewardPoints.total (erasRewardPoints eraIndex))
                    totalEraPayout payouts
    end.
Proof.
  intros (Hat & _ & Hi)%run_Ok. split; [exact Hat|].
  intros i entry Hentry eraIndex.
  destruct (Hi i entry Hentry) as (rp & Hrp & Hresult).
  apply eraDataAt_result_era in Hresult.
  unfold JS.Math_max in Hresult. fold eraIndex in Hresult.
  destruct entry as [message|entryEra tp tpay ps].
  - destruct Hresult as [-> ->]. done.
  - destruct Hresult as (-> & -> & ->). by exists rp, ps.
Qed.

(** A witness of [X15_entries_follow_validator_reward]: era 50 asked for [B]
    on the example chain. *)
Lemma X15_entries_follow_validator_reward_witness :
  ∃ erasRewardPoints payouts,
    HistoricApi.query_staking_erasRewardPoints Example.historicApi = Some erasRewardPoints ∧
    EraPayouts 50%N 1000%N 1000000%N [] =
      EraPayouts 50%N (PalletStakingEraRewardPoints.total (erasRewardPoints 50%N))
        1000000%N payouts.
Proof.
  destruct (X15_entries_follow_validator_reward Example.calc_payout Example.api "0xb10c"
              "B" 1 50 false 100 Example.historicApi Request.init
              (IAccountStakingPayouts.mk (At.mk 1234%N "0xb10c")
                 [EraPayouts 50%N 1000%N 1000000%N []])) as [_ H];
    [vm_compute; reflexivity|].
  exact (H 0%nat (EraPayouts 50%N 1000%N 1000000%N []) eq_refl).
Defined.

(** ** Commissions of the eras, position by position *)



(** ** The calls of [fetchAllErasCommissions] *)






(** The eras 99 and 100 of the example chain for [A], settled in the order
    of the arrays: both validators are asked for their controller in both
    eras, and both ledgers are read twice. *)
Lemma commission_calls_example :
  Request.queries
    (snd (fetchAllErasCommissions Example.historicApi "A" 99
            (inl <$> [mapStakers 99%N (Example.stakers 99%N);
                      mapStakers 100%N (Example.stakers 100%N)]) Request.init)) =
    [Q_erasValidatorPrefs 99%N "V"; Q_bonded "V";
     Q_erasValidatorPrefs 99%N "W"; Q_bonded "W";
     Q_erasValidatorPrefs 100%N "V"; Q_bonded "V";
     Q_erasValidatorPrefs 100%N "W"; Q_bonded "W";
     Q_ledger "Vc"; Q_ledger "Wc"; Q_ledger "Vc"; Q_ledger "Wc"].
Proof. vm_compute. reflexivity. Qed.
